(** * cluster-pool: a load-balancing cluster of generic-pool instances

    Shallow embedding of [lib/cluster-pool.js] and the properties of its
    selection algorithm, rotation state, aggregation and object isolation.

    The JavaScript heap is modelled explicitly: configuration objects,
    generic-pool handles and cluster objects live in three typed stores
    indexed by locations, so that aliasing between clusters, Members and
    the shared factory object is a matter of proof, not of construction. *)

From Stdlib Require Import ZArith Ascii.
From stdpp Require Import base gmap list strings fin_maps relations.

Local Open Scope Z_scope.

(** ** JavaScript values that the module handles *)

Module JS.

(** Values held by the fields of a factory object: numbers ([max], [min],
    [idleTimeoutMillis], ...), booleans ([log], [refreshIdle]), strings
    ([name]) and functions ([destroy], [validate], [create]), the latter
    as opaque identities. *)
Inductive val :=
| VUndef
| VNum (z : Z)
| VBool (b : bool)
| VStr (s : string)
| VFun (f : positive).

(** A plain object: the properties a [for ... in] loop enumerates (for an
    object literal, its own). *)
Abbreviation obj := (gmap string val).

(** The result of [Math.min] over waiting counts. *)
Inductive num :=
| Num (n : nat)
| NaN
| PosInf.

(** A JavaScript array of numbers that may have holes ([None]). *)
Abbreviation array := (list (option nat)).

(** [a[i] = v]: in range the slot is overwritten, past the end the array
    is extended, the slots in between being holes. *)
Definition array_set (a : array) (i : nat) (v : nat) : array :=
  if decide (i < length a)%nat
  then <[i := Some v]> a
  else a ++ replicate (i - length a) None ++ [Some v].

(** The strings [typeof] can return. *)
Inductive type_name :=
| TUndefined | TObject | TBoolean | TNumber | TString | TFunction.

Definition type_name_string (t : type_name) : string :=
  match t with
  | TUndefined => "undefined"
  | TObject => "object"
  | TBoolean => "boolean"
  | TNumber => "number"
  | TString => "string"
  | TFunction => "function"
  end.

(** [typeof] of a local that is either [undefined] or a number. *)
Definition typeof (v : option Z) : string :=
  type_name_string (match v with None => TUndefined | Some _ => TNumber end).

Definition digit_of (c : ascii) : option Z :=
  let n := Z.of_nat (nat_of_ascii c) in
  if decide (48 ≤ n ≤ 57) then Some (n - 48) else None.

Fixpoint digits_value (acc : Z) (s : string) : option Z :=
  match s with
  | EmptyString => Some acc
  | String c s' =>
      match digit_of c with
      | Some d => digits_value (10 * acc + d) s'
      | None => None
      end
  end.

(** ToNumber on a string, restricted to integer literals: the empty
    string is [0], an optionally signed run of decimal digits is its
    value, anything else is [NaN] ([None]).  No string produced by
    [typeof] belongs to the forms left out (hexadecimal, fractions,
    exponents, [Infinity], surrounding white space), all of which start
    with a digit, a sign, a dot, a capital [I] or a blank. *)
Definition string_to_number (s : string) : option Z :=
  match s with
  | EmptyString => Some 0
  | String "-" (String c s') => Z.opp <$> digits_value 0 (String c s')
  | String "+" (String c s') => digits_value 0 (String c s')
  | String c s' => digits_value 0 (String c s')
  end.

(** [s == z] for a string [s] and a number [z]: the string is converted
    with ToNumber and [NaN] equals nothing. *)
Definition loose_eq_string_number (s : string) (z : Z) : bool :=
  match string_to_number s with
  | Some n => bool_decide (n = z)
  | None => false
  end.

End JS.

(** ** The part of underscore the module calls *)

Module Underscore.
Import JS.

(** [_.min(list)] on an array is [Math.min.apply(Math, list)]: the least
    element, [Infinity] for no element, [NaN] as soon as one element is
    not a number (a hole reads as [undefined]). *)
Definition min_step (acc : num) (x : option nat) : num :=
  match acc, x with
  | NaN, _ => NaN
  | _, None => NaN
  | PosInf, Some n => Num n
  | Num m, Some n => Num (Nat.min m n)
  end.

Definition min (a : array) : num := foldl min_step PosInf a.

(** [x === item] for an array slot and the result of [min]. *)
Definition strict_eq (x : option nat) (item : num) : bool :=
  match x, item with
  | Some n, Num m => bool_decide (n = m)
  | _, _ => false
  end.

(** [_.indexOf(array, item)]: the first position holding [item] under
    [===], or [-1]. *)
Fixpoint indexOf_from (i : Z) (a : array) (item : num) : Z :=
  match a with
  | [] => -1
  | x :: a' => if strict_eq x item then i else indexOf_from (i + 1) a' item
  end.

Definition indexOf (a : array) (item : num) : Z := indexOf_from 0 a item.

End Underscore.

(** ** The per-server pool the cluster is built on (generic-pool)

    The module only calls the constructor and four methods of a pool.  A
    pool is its private state together with the factory object it was
    constructed from; the constructor may normalise that object in place
    (generic-pool fills in defaults), which is why it returns the object
    as it leaves it. *)

Class PoolModule := {
  pool_state : Type;
  Pool : JS.obj → JS.obj * pool_state;
  pool_acquire : option Z → pool_state → pool_state;
  pool_waitingClientsCount : pool_state → nat;
  pool_getPoolSize : pool_state → nat;
  pool_availableObjectsCount : pool_state → nat
}.

(** ** The heap *)

Abbreviation loc := positive.

Section Heap.
Context `{PM : PoolModule}.

(** A generic-pool handle: the factory object it holds on to, and its
    own counters and queues. *)
Record pool_obj := PoolObj {
  p_factory : loc;
  p_state : pool_state
}.

(** The object [me] built by [create]: its two fields, and the [factory]
    variable its methods close over, which holds a reference to an object
    or ([None]) a value that is not an object. *)
Record cluster_obj := ClusterObj {
  cluster : list loc;
  index : Z;
  factory : option loc
}.

Record world := World {
  objs : gmap loc JS.obj;
  pools : gmap loc pool_obj;
  clusters : gmap loc cluster_obj
}.

(** Calls that leave the module: [this.cluster[i].waitingClientsCount()]
    on the pool [p] found at [i], [pool.acquire] with the priority it is
    given ([None] when the argument is absent), or the caller's callback
    called with an [Error]. *)
Inductive event :=
| EvWaitingClientsCount (i : Z) (p : loc)
| EvPoolAcquire (p : loc) (priority : option Z)
| EvCallbackError (message : string).

(** A call either returns or dies on a [TypeError] (a method called on
    [undefined]); the heap is left as it was at that moment. *)
Inductive outcome (A : Type) :=
| Return (a : A)
| Throw (w : world).
Global Arguments Return {A} a.
Global Arguments Throw {A} w.

(** [a[i]] for a number [i]: [undefined] outside the array. *)
Definition at_index {A} (a : list A) (i : Z) : option A :=
  if decide (0 ≤ i) then a !! Z.to_nat i else None.

(** [this.cluster[i]] followed by a method call on it: the pool handle
    and the pool behind it.  A reference always leads to an object, so the
    second lookup only fails in a heap that is not well formed. *)
Definition member (w : world) (c : list loc) (i : Z) : option (loc * pool_obj) :=
  p ← at_index c i; po ← pools w !! p; Some (p, po).

Definition set_index (h : loc) (me : cluster_obj) (i : Z) (w : world) : world :=
  World (objs w) (pools w)
        (<[h := ClusterObj (cluster me) i (factory me)]> (clusters w)).

Definition set_pool_state (p : loc) (po : pool_obj) (st : pool_state)
    (w : world) : world :=
  World (objs w) (<[p := PoolObj (p_factory po) st]> (pools w)) (clusters w).

End Heap.

(** ** lib/cluster-pool.js *)

Module ClusterPool.
Import JS.

Section Methods.
Context `{PM : PoolModule}.

(** [create: function ClusterPool(factory)]: a new object [me] with an
    empty [cluster] array and [index] 0, whose methods see [factory]. *)
Definition create (factory : option loc) (w : world) : loc * world :=
  let h := fresh (dom (clusters w)) in
  (h, World (objs w) (pools w) (<[h := ClusterObj [] 0 factory]> (clusters w))).

(** [for (var i in factory) pool_factory[i] = factory[i]], starting from
    the empty object literal. *)
Definition copy_fields (factory : obj) : obj :=
  foldl (λ pool_factory '(i, v), <[i := v]> pool_factory) ∅ (map_to_list factory).

(** [me.add].  A [factory] that is not an object has no property to
    enumerate.  [Throw] only stands for a call through a handle that is
    not a cluster, where there is no method to call. *)
Definition add (h : loc) (create : val) (w : world) : outcome world :=
  match clusters w !! h with
  | None => Throw w
  | Some me =>
      let l := fresh (dom (objs w)) in
      let pool_factory :=
        copy_fields (default ∅ (f ← factory me; objs w !! f)) in
      let pool_factory := <["create" := create]> pool_factory in
      let '(pool_factory, st) := Pool pool_factory in
      let p := fresh (dom (pools w)) in
      Return (World (<[l := pool_factory]> (objs w))
                    (<[p := PoolObj l st]> (pools w))
                    (<[h := ClusterObj (cluster me ++ [p]) (index me) (factory me)]>
                       (clusters w)))
  end.

(** What [acquire] hands back to the model: the heap, the calls made, and
    the value of [useIndex] when [pool] was read ([None] when the cluster
    was empty and nothing was selected). *)
Record acquired := Acquired {
  a_world : world;
  a_trace : list event;
  a_selected : option Z
}.

(** The [while] loop of [acquire].  [todo] is [this.cluster.length -
    checked]; the loop leaves when it reaches 0 or when [useIndex] has
    been set.  [None] is the [TypeError] of [this.cluster[tryIndex]]
    being [undefined]. *)
Fixpoint scan (w : world) (c : list loc) (todo : nat) (tryIndex : Z)
    (poolWaiting : array) (tr : list event)
    : option (option Z * array * list event) :=
  match todo with
  | O => Some (None, poolWaiting, tr)
  | S todo =>
      match member w c tryIndex with
      | None => None
      | Some (p, po) =>
          let poolWaiting :=
            array_set poolWaiting (Z.to_nat tryIndex)
                      (pool_waitingClientsCount (p_state po)) in
          let tr := tr ++ [EvWaitingClientsCount tryIndex p] in
          if decide (poolWaiting !! Z.to_nat tryIndex = Some (Some 0%nat))
          then Some (Some tryIndex, poolWaiting, tr)
          else
            let tryIndex := tryIndex + 1 in
            let tryIndex :=
              if decide (tryIndex >= Z.of_nat (length c)) then 0 else tryIndex in
            scan w c todo tryIndex poolWaiting tr
      end
  end.

(** [me.acquire(callback, priority)].  The steps follow the source: the
    guard on an empty cluster, the loop, the fallback on [_.indexOf] and
    [_.min], the guard on [typeof useIndex], the two assignments of
    [this.index] (the second with [++useIndex]) around the read of
    [pool], and the call of [pool.acquire], whose only argument is the
    function wrapping [callback].  [a_selected] is [useIndex] before the
    increment. *)
Definition acquire (h : loc) (priority : option Z) (w : world)
    : outcome acquired :=
  match clusters w !! h with
  | None => Throw w
  | Some me =>
      let len := Z.of_nat (length (cluster me)) in
      if decide (len = 0) then
        Return (Acquired w [EvCallbackError "No servers added to cluster yet"] None)
      else
        match scan w (cluster me) (length (cluster me)) (index me) [] [] with
        | None => Throw w
        | Some (useIndex, poolWaiting, tr) =>
            let useIndex :=
              match useIndex with
              | Some i => i
              | None => Underscore.indexOf poolWaiting (Underscore.min poolWaiting)
              end in
            let useIndex :=
              if loose_eq_string_number (typeof (Some useIndex)) (-1)
              then index me else useIndex in
            let index1 := useIndex + 1 in
            let index1 := if decide (index1 >= len) then 0 else index1 in
            let pool := member w (cluster me) useIndex in
            let useIndex' := useIndex + 1 in
            let index2 := if decide (useIndex' >= len) then 0 else useIndex' in
            let w := set_index h me index2 (set_index h me index1 w) in
            match pool with
            | None => Throw w
            | Some (p, po) =>
                Return (Acquired
                          (set_pool_state p po (pool_acquire None (p_state po)) w)
                          (tr ++ [EvPoolAcquire p None])
                          (Some useIndex))
            end
        end
  end.

(** [forEach] over the cluster array adding up one counter of each pool. *)
Definition sum_pools (f : pool_state → nat) (w : world) (c : list loc)
    : option nat :=
  foldl (λ count p, n ← count; po ← pools w !! p; Some (n + f (p_state po))%nat)
        (Some 0%nat) c.

Definition getClusterSize (h : loc) (w : world) : option nat :=
  me ← clusters w !! h; Some (length (cluster me)).

Definition getPoolSize (h : loc) (w : world) : option nat :=
  me ← clusters w !! h; sum_pools pool_getPoolSize w (cluster me).

Definition availableObjectsCount (h : loc) (w : world) : option nat :=
  me ← clusters w !! h; sum_pools pool_availableObjectsCount w (cluster me).

Definition waitingClientsCount (h : loc) (w : world) : option nat :=
  me ← clusters w !! h; sum_pools pool_waitingClientsCount w (cluster me).

End Methods.
End ClusterPool.

(** ** A pool to run the module on

    A counting model of generic-pool with a synchronous producer: a
    request takes an idle resource, or has one created while fewer than
    [max] exist, or queues.  It serves to evaluate the module on concrete
    clusters; the theorems below hold for every [PoolModule]. *)

Module CountingPool.
Import JS.

Record state := State {
  max : nat;
  count : nat;
  available : nat;
  waiting : nat
}.

Definition max_of (factory : obj) : nat :=
  match factory !! "max" with
  | Some (VNum z) => if decide (1 ≤ z) then Z.to_nat z else 1%nat
  | _ => 1%nat
  end.

Definition construct (factory : obj) : obj * state :=
  (<["max" := VNum (Z.of_nat (max_of factory))]> factory,
   State (max_of factory) 0 0 0).

Definition request (priority : option Z) (s : state) : state :=
  match available s with
  | S n => State (max s) (count s) n (waiting s)
  | O =>
      if decide (count s < max s)%nat
      then State (max s) (S (count s)) 0 (waiting s)
      else State (max s) (count s) 0 (S (waiting s))
  end.

Definition module : PoolModule := {|
  pool_state := state;
  Pool := construct;
  pool_acquire := request;
  pool_waitingClientsCount := waiting;
  pool_getPoolSize := count;
  pool_availableObjectsCount := available
|}.

End CountingPool.

(** ** Vocabulary of the properties *)

Section Vocabulary.
Import JS ClusterPool.
Context `{PM : PoolModule}.

(** A run of assignments [a[i] = f i]. *)
Definition array_sets (f : nat → nat) (a : array) (ixs : list nat) : array :=
  foldl (λ a i, array_set a i (f i)) a ixs.

(** The count held at position [i] of a list of counts. *)
Definition count_at (ws : list nat) (i : nat) : nat := default 0%nat (ws !! i).

(** One counter of every Member, in the order of the cluster array. *)
Definition counters (f : pool_state → nat) (w : world) (c : list loc)
    : option (list nat) :=
  mapM (λ p, f ∘ p_state <$> pools w !! p) c.

Definition waitings : world → list loc → option (list nat) :=
  counters pool_waitingClientsCount.

(** The indices whose waiting count a run of calls has read, in order. *)
Definition reads (tr : list event) : list Z :=
  omap (λ e, match e with EvWaitingClientsCount i _ => Some i | _ => None end) tr.

(** The [k]-th index of a circular walk over [n] slots from [cur]. *)
Definition visit (n : nat) (cur : Z) (k : nat) : Z :=
  (cur + Z.of_nat k) `mod` Z.of_nat n.

(** The two rules of the selection of index [i] over the waiting counts
    [ws], with the Cursor at [cur] and [rd] the indices read on the way.
    First rule: [i] is the first position of the circular walk from the
    Cursor whose count is 0, and the walk stopped there. *)
Definition first_idle (ws : list nat) (cur i : Z) (rd : list Z) : Prop :=
  ∃ k, (k < length ws)%nat ∧
       i = visit (length ws) cur k ∧
       ws !! Z.to_nat i = Some 0%nat ∧
       (∀ j, (j < k)%nat → ws !! Z.to_nat (visit (length ws) cur j) ≠ Some 0%nat) ∧
       rd = visit (length ws) cur <$> seq 0 (S k).

(** Second rule: [i] is the lowest position that holds the least count. *)
Definition least_loaded (ws : list nat) (i : Z) : Prop :=
  ∃ m, ws !! Z.to_nat i = Some m ∧
       (∀ j n, ws !! j = Some n → (m ≤ n)%nat) ∧
       (∀ j n, (j < Z.to_nat i)%nat → ws !! j = Some n → (m < n)%nat).

Definition selection_rule (ws : list nat) (cur i : Z) (rd : list Z) : Prop :=
  first_idle ws cur i rd ∨
  ((∀ j, ws !! j ≠ Some 0%nat) ∧ least_loaded ws i ∧
   rd = visit (length ws) cur <$> seq 0 (length ws)).

(** [n] calls of [acquire] in a row, nothing happening in between, with
    the index each one selected. *)
Fixpoint acquires (h : loc) (priority : option Z) (n : nat) (w : world)
    : outcome (world * list (option Z)) :=
  match n with
  | O => Return (w, [])
  | S n =>
      match acquire h priority w with
      | Throw w' => Throw w'
      | Return r =>
          match acquires h priority n (a_world r) with
          | Throw w' => Throw w'
          | Return (w', sels) => Return (w', a_selected r :: sels)
          end
      end
  end.

(** The Cursor of a cluster is a position of its array, or 0 while the
    array is empty. *)
Definition cursor_ok (me : cluster_obj) : Prop :=
  0 ≤ index me < Z.max 1 (Z.of_nat (length (cluster me))).

(** Every slot of every cluster array holds a live pool, no pool sits in
    two slots, and no pool sits in two clusters. *)
Definition heap_ok (w : world) : Prop :=
  (∀ h me, clusters w !! h = Some me →
     NoDup (cluster me) ∧ ∀ p, p ∈ cluster me → is_Some (pools w !! p)) ∧
  (∀ h1 h2 me1 me2 p,
     clusters w !! h1 = Some me1 → clusters w !! h2 = Some me2 →
     p ∈ cluster me1 → p ∈ cluster me2 → h1 = h2).

Definition cursors_ok (w : world) : Prop :=
  ∀ h me, clusters w !! h = Some me → cursor_ok me.

(** What a cluster reports: its size and its three totals. *)
Definition statistics (h : loc) (w : world)
    : option nat * option nat * option nat * option nat :=
  (getClusterSize h w, getPoolSize h w,
   availableObjectsCount h w, waitingClientsCount h w).

(** A cluster is the same in two heaps: same Cursor and array, same state
    of every Member, same reports. *)
Definition same_cluster (h : loc) (w w' : world) : Prop :=
  clusters w' !! h = clusters w !! h ∧
  (∀ me p, clusters w !! h = Some me → p ∈ cluster me →
     pools w' !! p = pools w !! p) ∧
  statistics h w' = statistics h w.

(** What can happen to a heap: a call of [create], a completed [add] or
    [acquire] on some cluster, or a Member pool changing its own state
    (a release, a resource created or reaped, a queued request served). *)
Inductive step : world → world → Prop :=
| step_create factory w :
    (∀ l, factory = Some l → is_Some (objs w !! l)) →
    step w (create factory w).2
| step_add h create w w' :
    add h create w = Return w' → step w w'
| step_acquire h priority w r :
    acquire h priority w = Return r → step w (a_world r)
| step_member p po st w :
    pools w !! p = Some po → step w (set_pool_state p po st w).

(** A heap on which the module has not been used yet. *)
Definition initial (w : world) : Prop :=
  pools w = ∅ ∧ clusters w = ∅.

Definition reachable (w : world) : Prop :=
  ∃ w0, initial w0 ∧ rtc step w0 w.

End Vocabulary.

(** ** Clusters to evaluate the module on *)

Module Example.
Import JS ClusterPool.
#[local] Existing Instance CountingPool.module.

(** A factory object, at location 1 of a heap the module has not used. *)
Definition config : obj := {[ "max" := VNum 4 ]}.

Definition w_fresh : world := World {[ 1%positive := config ]} ∅ ∅.

Definition add_to (h : loc) (f : positive) (w : world) : world :=
  match add h (VFun f) w with Return w' => w' | Throw w' => w' end.

(** The pool at [p] with all its 4 resources out and [n] requests
    queued. *)
Definition with_waiting (p : loc) (n : nat) (w : world) : world :=
  match pools w !! p with
  | Some po => set_pool_state p po (CountingPool.State 4 4 0 n) w
  | None => w
  end.

(** Cluster 1 as [create] returns it. *)
Definition w_empty : world := (create (Some 1%positive) w_fresh).2.

(** Cluster 1 with the Members 1, 2 and 3, all idle. *)
Definition w_three : world := add_to 1 3 (add_to 1 2 (add_to 1 1 w_empty)).

(** The same with 5, 2 and 2 requests waiting. *)
Definition w_loaded : world :=
  with_waiting 3 2 (with_waiting 2 2 (with_waiting 1 5 w_three)).

(** A second cluster, 2, made from the same factory object, with the
    Member 4. *)
Definition w_pair : world := add_to 2 4 (create (Some 1%positive) w_three).2.

(** Cluster 1 with three Members without a waiting request, the first of
    which has all its 4 resources out. *)
Definition w_busy0 : world := with_waiting 1 0 w_three.

(** The heap a call of [acquire] leaves. *)
Definition after_acquire (h : loc) (priority : option Z) (w : world) : world :=
  match acquire h priority w with Return r => a_world r | Throw w' => w' end.

(** Cluster 1 after a request and then a fourth Member. *)
Definition w_later : world := add_to 1 4 (after_acquire 1 None w_three).

(** Cluster 1 with its Cursor moved past the end of the array by hand. *)
Definition w_astray : world :=
  set_index 1 (ClusterObj [1; 2; 3]%positive 0 (Some 1%positive)) 5 w_three.

(** What a call of [acquire] shows: the index selected, the indices read
    and the calls made. *)
Definition shown (o : outcome acquired) : option (option Z * list Z * list event) :=
  match o with
  | Return r => Some (a_selected r, reads (a_trace r), a_trace r)
  | Throw _ => None
  end.

Definition selections (o : outcome (world * list (option Z)))
    : option (list (option Z)) :=
  match o with
  | Return (_, sels) => Some sels
  | Throw _ => None
  end.

End Example.

(** * Properties *)

(** ** Arrays with holes *)

Section Arrays.
Import JS.

Lemma array_set_length (a : array) i v :
  length (array_set a i v) = (length a `max` S i)%nat.
Proof.
  unfold array_set. case_decide.
  - rewrite length_insert. lia.
  - rewrite !length_app, length_replicate. simpl. lia.
Qed.

Lemma array_set_lookup_eq (a : array) i v :
  array_set a i v !! i = Some (Some v).
Proof.
  unfold array_set. case_decide.
  - by apply list_lookup_insert_eq.
  - rewrite lookup_app_r by lia.
    rewrite lookup_app_r by (rewrite length_replicate; lia).
    rewrite length_replicate.
    by replace (i - length a - (i - length a))%nat with 0%nat by lia.
Qed.

Lemma array_set_lookup_ne (a : array) i v j x :
  i ≠ j → a !! j = Some x → array_set a i v !! j = Some x.
Proof.
  intros Hne Hj. unfold array_set. case_decide.
  - by rewrite list_lookup_insert_ne.
  - by apply lookup_app_l_Some.
Qed.

Lemma array_sets_length f ixs : ∀ (a : array) n,
  (length a ≤ n)%nat → Forall (λ i, i < n)%nat ixs →
  (length (array_sets f a ixs) ≤ n)%nat.
Proof.
  induction ixs as [|i ixs IH]; intros a n Ha Hixs; simpl; [done|].
  inversion_clear Hixs. apply IH; [|done].
  rewrite array_set_length. lia.
Qed.

Lemma array_sets_lookup f ixs j : ∀ a : array,
  a !! j = Some (Some (f j)) ∨ j ∈ ixs →
  array_sets f a ixs !! j = Some (Some (f j)).
Proof.
  induction ixs as [|i ixs IH]; intros a H; simpl.
  - destruct H as [H|H]; [done|]. by apply elem_of_nil in H.
  - apply IH. destruct (decide (i = j)) as [->|Hne].
    + left. apply array_set_lookup_eq.
    + destruct H as [H|H].
      * left. by apply array_set_lookup_ne.
      * right. apply elem_of_cons in H as [?|?]; [congruence|done].
Qed.

(** Assigning every index below [length ws] its value in [ws], in any
    order, builds the array without holes that holds [ws]. *)
Lemma array_sets_full (ws : list nat) (f : nat → nat) ixs :
  (∀ j n, ws !! j = Some n → f j = n) →
  Forall (λ i, i < length ws)%nat ixs →
  (∀ j, j < length ws → j ∈ ixs)%nat →
  array_sets f [] ixs = Some <$> ws.
Proof.
  intros Hf Hixs Hall. apply list_eq. intros j.
  rewrite list_lookup_fmap.
  destruct (ws !! j) as [n|] eqn:Hj; simpl.
  - rewrite (array_sets_lookup f ixs j).
    + by rewrite (Hf _ _ Hj).
    + right. apply Hall. by eapply lookup_lt_Some.
  - apply lookup_ge_None. apply lookup_ge_None in Hj.
    etrans; [|exact Hj]. apply array_sets_length; [simpl; lia|done].
Qed.

End Arrays.

(** ** [_.min] and [_.indexOf] on an array without holes *)

Section UnderscoreFacts.
Import JS.

Lemma min_from_dense (l : list nat) : ∀ a,
  foldl Underscore.min_step (Num a) (Some <$> l) = Num (foldl Nat.min a l).
Proof. induction l as [|n l IH]; intros a; simpl; [done|apply IH]. Qed.

Lemma foldl_min_le (l : list nat) : ∀ a,
  (foldl Nat.min a l ≤ a)%nat ∧ ∀ n, n ∈ l → (foldl Nat.min a l ≤ n)%nat.
Proof.
  induction l as [|x l IH]; intros a; simpl.
  - split; [lia|]. intros n Hn. by apply elem_of_nil in Hn.
  - destruct (IH (Nat.min a x)) as [Hle Hall]. split; [lia|].
    intros n [->|Hn]%elem_of_cons; [lia|by apply Hall].
Qed.

Lemma foldl_min_elem (l : list nat) : ∀ a,
  foldl Nat.min a l = a ∨ foldl Nat.min a l ∈ l.
Proof.
  induction l as [|x l IH]; intros a; simpl; [by left|].
  destruct (IH (Nat.min a x)) as [H|H].
  - rewrite H. destruct (Nat.min_spec a x) as [[_ ->]|[_ ->]];
      [by left|right; apply elem_of_cons; by left].
  - right. apply elem_of_cons. by right.
Qed.

Lemma min_dense (ws : list nat) :
  ws ≠ [] →
  ∃ m, Underscore.min (Some <$> ws) = Num m ∧ m ∈ ws ∧
       ∀ n, n ∈ ws → (m ≤ n)%nat.
Proof.
  destruct ws as [|a l]; [done|]. intros _.
  exists (foldl Nat.min a l). unfold Underscore.min. simpl.
  split; [apply min_from_dense|].
  destruct (foldl_min_le l a) as [Hle Hall]. split.
  - apply elem_of_cons. destruct (foldl_min_elem l a) as [->|?]; auto.
  - intros n [->|Hn]%elem_of_cons; auto.
Qed.

Lemma indexOf_from_dense (ws : list nat) m : ∀ i0,
  m ∈ ws →
  ∃ k, Underscore.indexOf_from i0 (Some <$> ws) (Num m) = i0 + Z.of_nat k ∧
       ws !! k = Some m ∧
       ∀ j n, (j < k)%nat → ws !! j = Some n → n ≠ m.
Proof.
  induction ws as [|x ws IH]; intros i0 Hm; [by apply elem_of_nil in Hm|].
  rewrite fmap_cons. cbn [Underscore.indexOf_from Underscore.strict_eq].
  destruct (decide (x = m)) as [->|Hne].
  - exists 0%nat. rewrite bool_decide_eq_true_2 by done.
    split; [lia|]. split; [done|]. intros; lia.
  - rewrite bool_decide_eq_false_2 by done.
    apply elem_of_cons in Hm as [?|Hm]; [congruence|].
    destruct (IH (i0 + 1) Hm) as (k & -> & Hk & Hlt).
    exists (S k). split; [lia|]. split; [done|].
    intros [|j] n Hj Hn; simpl in Hn; [congruence|].
    apply (Hlt j); [lia|done].
Qed.

(** The fallback of [acquire] on the waiting counts [ws]: the position it
    computes is the first one that holds the least count. *)
Lemma indexOf_min_dense (ws : list nat) :
  ws ≠ [] →
  ∃ (k m : nat),
    Underscore.indexOf (Some <$> ws) (Underscore.min (Some <$> ws)) = Z.of_nat k ∧
    ws !! k = Some m ∧
    (∀ j n, ws !! j = Some n → (m ≤ n)%nat) ∧
    (∀ j n, (j < k)%nat → ws !! j = Some n → (m < n)%nat).
Proof.
  intros Hne. destruct (min_dense ws Hne) as (m & -> & Hin & Hmin).
  destruct (indexOf_from_dense ws m 0 Hin) as (k & Hk & Hlook & Hfirst).
  exists k, m. unfold Underscore.indexOf. rewrite Hk.
  split; [lia|]. split; [done|]. split.
  - intros j n Hj. apply Hmin. by eapply list_elem_of_lookup_2.
  - intros j n Hlt Hj.
    assert (m ≤ n)%nat by (apply Hmin; by eapply list_elem_of_lookup_2).
    assert (n ≠ m) by by eapply Hfirst. lia.
Qed.

(** The guard [typeof useIndex == -1] compares the name of a type with a
    number: it fails whatever [useIndex] holds. *)
Lemma typeof_never_minus_one (v : option Z) :
  loose_eq_string_number (typeof v) (-1) = false.
Proof. by destruct v. Qed.

End UnderscoreFacts.

(** ** The selection loop *)

Section Selection.
Import JS ClusterPool.
Context `{PM : PoolModule}.

Lemma visit_0 n cur : 0 ≤ cur < Z.of_nat n → visit n cur 0 = cur.
Proof. intros. unfold visit. rewrite Z.add_0_r. by apply Z.mod_small. Qed.

Lemma visit_range n cur k : (0 < n)%nat → 0 ≤ visit n cur k < Z.of_nat n.
Proof. intros. unfold visit. apply Z.mod_pos_bound. lia. Qed.

(** The wrap-around of [tryIndex] is one step of the walk. *)
Lemma visit_next n cur k :
  0 ≤ cur < Z.of_nat n →
  visit n (if decide (cur + 1 >= Z.of_nat n) then 0 else cur + 1) k
  = visit n cur (S k).
Proof.
  intros Hcur. unfold visit. case_decide.
  - assert (cur + 1 = Z.of_nat n) as Hn by lia.
    replace (cur + Z.of_nat (S k)) with (Z.of_nat k + 1 * Z.of_nat n) by lia.
    by rewrite Z.mod_add by lia.
  - f_equal. lia.
Qed.

Lemma visit_seq_next n cur k :
  0 ≤ cur < Z.of_nat n →
  cur :: (visit n (if decide (cur + 1 >= Z.of_nat n) then 0 else cur + 1)
            <$> seq 0 k)
  = visit n cur <$> seq 0 (S k).
Proof.
  intros Hcur. cbn [seq]. rewrite fmap_cons, visit_0 by done. f_equal.
  rewrite <- fmap_S_seq, <- list_fmap_compose.
  apply list_fmap_ext. intros _ j _. simpl. by apply visit_next.
Qed.

Lemma visit_onto n cur j :
  0 ≤ j < Z.of_nat n → ∃ k, (k < n)%nat ∧ visit n cur k = j.
Proof.
  intros Hj. exists (Z.to_nat ((j - cur) `mod` Z.of_nat n)).
  pose proof (Z.mod_pos_bound (j - cur) (Z.of_nat n)) as Hb.
  split; [lia|]. unfold visit. rewrite Z2Nat.id by lia.
  rewrite Zplus_mod_idemp_r.
  replace (cur + (j - cur)) with j by lia. by apply Z.mod_small.
Qed.

Lemma counters_length f w c ns : counters f w c = Some ns → length ns = length c.
Proof. intros H. symmetry. by eapply length_mapM. Qed.

Lemma counters_lookup f w c ns i p :
  counters f w c = Some ns → c !! i = Some p →
  ∃ po, pools w !! p = Some po ∧ ns !! i = Some (f (p_state po)).
Proof.
  intros H Hp. apply mapM_Some in H.
  destruct (Forall2_lookup_l _ _ _ _ _ H Hp) as (n & Hn & Hf).
  destruct (pools w !! p) as [po|]; simplify_eq/=. eauto.
Qed.

Lemma member_counters f w c ns t :
  counters f w c = Some ns → 0 ≤ t < Z.of_nat (length c) →
  ∃ p po, member w c t = Some (p, po) ∧ c !! Z.to_nat t = Some p ∧
          pools w !! p = Some po ∧ ns !! Z.to_nat t = Some (f (p_state po)).
Proof.
  intros H Ht.
  destruct (lookup_lt_is_Some_2 c (Z.to_nat t)) as [p Hp]; [lia|].
  destruct (counters_lookup _ _ _ _ _ _ H Hp) as (po & Hpo & Hn).
  exists p, po. unfold member, at_index.
  rewrite decide_True by lia. rewrite Hp. simpl. by rewrite Hpo.
Qed.

Lemma reads_app tr1 tr2 : reads (tr1 ++ tr2) = reads tr1 ++ reads tr2.
Proof. apply omap_app. Qed.

Lemma reads_pool_acquire tr p x :
  reads (tr ++ [EvPoolAcquire p x]) = reads tr.
Proof. rewrite reads_app. apply (right_id_L [] (++)). Qed.

Section Scan.
Variables (w : world) (c : list loc) (ws : list nat).
Hypothesis Hws : waitings w c = Some ws.

(** The scan stops at the first idle Member of the walk. *)
Lemma scan_found k : ∀ todo t pw tr,
  (k < todo)%nat → 0 ≤ t < Z.of_nat (length c) →
  (∀ j, (j < k)%nat → ws !! Z.to_nat (visit (length c) t j) ≠ Some 0%nat) →
  ws !! Z.to_nat (visit (length c) t k) = Some 0%nat →
  ∃ pw' tr',
    scan w c todo t pw tr = Some (Some (visit (length c) t k), pw', tr') ∧
    reads tr' = reads tr ++ (visit (length c) t <$> seq 0 (S k)).
Proof.
  induction k as [|k IH]; intros todo t pw tr Hk Ht Hnz Hz;
    (destruct todo as [|todo]; [lia|]);
    destruct (member_counters _ _ _ _ _ Hws Ht) as (p & po & Hm & _ & _ & Hn);
    cbn [scan]; rewrite Hm; rewrite array_set_lookup_eq.
  - rewrite visit_0 in Hz by done. rewrite Hn in Hz.
    rewrite decide_True by congruence.
    eexists _, _. split; [by rewrite visit_0|].
    rewrite reads_app. simpl. by rewrite visit_0.
  - pose proof (Hnz 0%nat ltac:(lia)) as H0.
    rewrite visit_0, Hn in H0 by done.
    rewrite decide_False by congruence.
    edestruct (IH todo (if decide (t + 1 >= Z.of_nat (length c)) then 0 else t + 1))
      as (pw' & tr' & -> & Hr).
    + lia.
    + case_decide; lia.
    + intros j Hj. rewrite visit_next by done. apply Hnz. lia.
    + by rewrite visit_next.
    + eexists _, _. split; [by rewrite visit_next|].
      rewrite Hr, reads_app, <- (assoc_L (++)).
      by rewrite <- (visit_seq_next _ t (S k)).
Qed.

(** When no Member of the walk is idle the scan visits [todo] of them and
    records the count of each. *)
Lemma scan_none : ∀ todo t pw tr,
  0 ≤ t < Z.of_nat (length c) →
  (∀ j, (j < todo)%nat → ws !! Z.to_nat (visit (length c) t j) ≠ Some 0%nat) →
  ∃ tr',
    scan w c todo t pw tr
    = Some (None,
            array_sets (count_at ws) pw ((Z.to_nat ∘ visit (length c) t) <$> seq 0 todo),
            tr') ∧
    reads tr' = reads tr ++ (visit (length c) t <$> seq 0 todo).
Proof.
  induction todo as [|todo IH]; intros t pw tr Ht Hnz.
  - exists tr. simpl. by rewrite (right_id_L [] (++)).
  - destruct (member_counters _ _ _ _ _ Hws Ht) as (p & po & Hm & _ & _ & Hn).
    cbn [scan]. rewrite Hm, array_set_lookup_eq.
    pose proof (Hnz 0%nat ltac:(lia)) as H0.
    rewrite visit_0, Hn in H0 by done.
    rewrite decide_False by congruence.
    edestruct (IH (if decide (t + 1 >= Z.of_nat (length c)) then 0 else t + 1))
      as (tr' & -> & Hr).
    + case_decide; lia.
    + intros j Hj. rewrite visit_next by done. apply Hnz. lia.
    + exists tr'. split.
      * do 3 f_equal.
        rewrite !(list_fmap_compose (visit _ _)).
        rewrite <- (visit_seq_next _ t todo) by done.
        rewrite fmap_cons. unfold array_sets. cbn [foldl].
        do 2 f_equal. unfold count_at. by rewrite Hn.
      * rewrite Hr, reads_app, <- (assoc_L (++)).
        by rewrite <- (visit_seq_next _ t todo).
Qed.

(** After a full walk without an idle Member [poolWaiting] has no hole:
    it is the list of the waiting counts. *)
Lemma scan_full t :
  0 ≤ t < Z.of_nat (length c) →
  array_sets (count_at ws) [] ((Z.to_nat ∘ visit (length c) t) <$> seq 0 (length c))
  = Some <$> ws.
Proof.
  intros Ht. pose proof (counters_length _ _ _ _ Hws) as Hlen.
  apply array_sets_full.
  - intros j n Hj. unfold count_at. by rewrite Hj.
  - apply Forall_fmap, Forall_forall. intros k _. simpl.
    pose proof (visit_range (length c) t k). lia.
  - intros j Hj. destruct (visit_onto (length c) t (Z.of_nat j)) as (k & Hk & Hv);
      [lia|].
    apply list_elem_of_fmap. exists k. split.
    + simpl. rewrite Hv. lia.
    + apply elem_of_seq. lia.
Qed.

End Scan.
End Selection.

(** ** [acquire] on a cluster with Members *)

Section Acquire.
Import JS ClusterPool.
Context `{PM : PoolModule}.

Lemma wrap_mod (i n : Z) :
  0 ≤ i < n → (if decide (i + 1 >= n) then 0 else i + 1) = (i + 1) `mod` n.
Proof.
  intros. case_decide.
  - replace (i + 1) with n by lia. by rewrite Z.mod_same by lia.
  - by rewrite Z.mod_small by lia.
Qed.

Lemma set_index_twice h me i1 i2 (w : world) :
  set_index h me i2 (set_index h me i1 w) = set_index h me i2 w.
Proof. unfold set_index. simpl. by rewrite insert_insert_eq. Qed.

(** The selection made by the loop and the fallback together. *)
Lemma select_spec (w : world) c ws cur :
  waitings w c = Some ws → c ≠ [] → 0 ≤ cur < Z.of_nat (length c) →
  ∃ useIndex poolWaiting tr i,
    scan w c (length c) cur [] [] = Some (useIndex, poolWaiting, tr) ∧
    i = match useIndex with
        | Some i => i
        | None => Underscore.indexOf poolWaiting (Underscore.min poolWaiting)
        end ∧
    (useIndex = None → poolWaiting = Some <$> ws) ∧
    0 ≤ i < Z.of_nat (length c) ∧
    selection_rule ws cur i (reads tr).
Proof.
  intros Hws Hne Hcur.
  pose proof (counters_length _ _ _ _ Hws) as Hlen.
  destruct (list_find (λ j, ws !! Z.to_nat (visit (length c) cur j) = Some 0%nat)
                      (seq 0 (length c))) as [[k' k]|] eqn:Hfind.
  - apply list_find_Some in Hfind as (Hk & Hz & Hfirst).
    apply lookup_seq in Hk as [-> Hk]. simpl in Hz.
    assert (∀ j, (j < k')%nat →
              ws !! Z.to_nat (visit (length c) cur j) ≠ Some 0%nat) as Hnz.
    { intros j Hj. apply (Hfirst j j); [|done]. apply lookup_seq. lia. }
    destruct (scan_found w c ws Hws k' (length c) cur [] []) as (pw & tr & Hscan & Hr);
      [done..|].
    exists (Some (visit (length c) cur k')), pw, tr, (visit (length c) cur k').
    split; [done|]. split; [done|]. split; [done|].
    split; [apply visit_range; lia|].
    left. exists k'. rewrite Hlen, Hr. by split_and!.
  - apply list_find_None in Hfind.
    destruct (scan_none w c ws Hws (length c) cur [] []) as (tr & Hscan & Hr);
      [done| |].
    { intros j Hj. eapply (proj1 (Forall_forall _ _) Hfind). apply elem_of_seq. lia. }
    rewrite (scan_full w c ws Hws) in Hscan by done.
    destruct (indexOf_min_dense ws) as (k & m & Hk & Hm & Hmin & Hlow).
    { intros ->. destruct c; simpl in *; [done|lia]. }
    exists None, (Some <$> ws), tr, (Z.of_nat k).
    split; [done|]. split; [done|]. split; [done|]. split.
    + apply lookup_lt_Some in Hm. lia.
    + right. split; [|split].
      * intros j Hj.
        destruct (visit_onto (length c) cur (Z.of_nat j)) as (k0 & Hk0 & Hv).
        { apply lookup_lt_Some in Hj. lia. }
        eapply (proj1 (Forall_forall _ _) Hfind k0); [apply elem_of_seq; lia|].
        simpl. rewrite Hv. by rewrite Nat2Z.id.
      * exists m. rewrite Nat2Z.id. done.
      * by rewrite Hlen, Hr.
Qed.

(** The whole of [acquire] on a cluster with at least one Member, every
    slot of which holds a live pool, and whose Cursor is a position. *)
Lemma acquire_spec h priority (w : world) me ws :
  clusters w !! h = Some me →
  waitings w (cluster me) = Some ws →
  cluster me ≠ [] →
  0 ≤ index me < Z.of_nat (length (cluster me)) →
  ∃ i p po tr,
    acquire h priority w
    = Return (Acquired
                (set_pool_state p po (pool_acquire None (p_state po))
                   (set_index h me ((i + 1) `mod` Z.of_nat (length (cluster me))) w))
                (tr ++ [EvPoolAcquire p None])
                (Some i)) ∧
    0 ≤ i < Z.of_nat (length (cluster me)) ∧
    cluster me !! Z.to_nat i = Some p ∧
    pools w !! p = Some po ∧
    selection_rule ws (index me) i (reads tr).
Proof.
  intros Hme Hws Hne Hcur.
  destruct (select_spec w _ _ _ Hws Hne Hcur)
    as (useIndex & pw & tr & i & Hscan & Hi & _ & Hrange & Hrule).
  destruct (member_counters _ _ _ _ _ Hws Hrange) as (p & po & Hm & Hp & Hpo & _).
  exists i, p, po, tr. unfold acquire. rewrite Hme.
  rewrite decide_False by (destruct (cluster me); simpl in *; [done|lia]).
  rewrite Hscan. cbv zeta. rewrite <- Hi.
  rewrite typeof_never_minus_one, Hm, set_index_twice, wrap_mod by done.
  done.
Qed.

End Acquire.

(** ** What the methods do to the heap *)

Section HeapEffects.
Import JS ClusterPool.
Context `{PM : PoolModule}.

Lemma member_inv (w : world) c i p po :
  member w c i = Some (p, po) →
  0 ≤ i < Z.of_nat (length c) ∧ c !! Z.to_nat i = Some p ∧ pools w !! p = Some po.
Proof.
  unfold member, at_index. intros H. case_decide; [|done].
  destruct (c !! Z.to_nat i) as [q|] eqn:Hq; [|done]. simpl in H.
  destruct (pools w !! q) as [qo|] eqn:Hqo; [|done]. simplify_eq/=.
  apply lookup_lt_Some in Hq. split; [lia|done].
Qed.

(** A completed [acquire] either found the cluster empty and left the heap
    alone, or moved the Cursor of its own cluster and handed the request
    to one pool of its own array. *)
Lemma acquire_inv h priority (w : world) r :
  acquire h priority w = Return r →
  ∃ me, clusters w !! h = Some me ∧
    ((cluster me = [] ∧
      r = Acquired w [EvCallbackError "No servers added to cluster yet"] None) ∨
     (∃ i p po tr,
        0 ≤ i < Z.of_nat (length (cluster me)) ∧
        cluster me !! Z.to_nat i = Some p ∧ pools w !! p = Some po ∧
        r = Acquired
              (set_pool_state p po (pool_acquire None (p_state po))
                 (set_index h me ((i + 1) `mod` Z.of_nat (length (cluster me))) w))
              (tr ++ [EvPoolAcquire p None]) (Some i))).
Proof.
  unfold acquire. intros H.
  destruct (clusters w !! h) as [me|]; [|done]. exists me. split; [done|].
  case_decide as Hlen.
  - left. simplify_eq. split; [|done]. destruct (cluster me); [done|simpl in *; lia].
  - right.
    destruct (scan _ _ _ _ _ _) as [[[useIndex pw] tr]|]; [|done].
    cbv zeta in H. rewrite typeof_never_minus_one, set_index_twice in H.
    destruct (member _ _ _) as [[p po]|] eqn:Hm; [|done].
    apply member_inv in Hm as (Hi & Hp & Hpo).
    rewrite wrap_mod in H by done. simplify_eq. eauto 10.
Qed.

Lemma add_inv h create (w w' : world) :
  add h create w = Return w' →
  ∃ me, clusters w !! h = Some me ∧
    let l := fresh (dom (objs w)) in
    let p := fresh (dom (pools w)) in
    let built := Pool (<["create" := create]>
                         (copy_fields (default ∅ (f ← factory me; objs w !! f)))) in
    w' = World (<[l := built.1]> (objs w))
               (<[p := PoolObj l built.2]> (pools w))
               (<[h := ClusterObj (cluster me ++ [p]) (index me) (factory me)]>
                  (clusters w)).
Proof.
  unfold add. intros H. destruct (clusters w !! h) as [me|]; [|done].
  exists me. split; [done|]. cbv zeta in *.
  destruct (Pool _) as [pf st]. by simplify_eq.
Qed.

Lemma fresh_pool (w : world) : pools w !! fresh (dom (pools w)) = None.
Proof. apply not_elem_of_dom, is_fresh. Qed.

Lemma fresh_obj (w : world) : objs w !! fresh (dom (objs w)) = None.
Proof. apply not_elem_of_dom, is_fresh. Qed.

Lemma fresh_cluster (w : world) : clusters w !! fresh (dom (clusters w)) = None.
Proof. apply not_elem_of_dom, is_fresh. Qed.

(** *** The heap invariant *)

Lemma heap_ok_create factory w : heap_ok w → heap_ok (create factory w).2.
Proof.
  intros [Hlive Hpriv]. pose proof (fresh_cluster w) as Hfresh.
  split; simpl.
  - intros h me [[<- <-]|[_ Hme]]%lookup_insert_Some; simpl.
    + split; [constructor|]. intros p Hp. by apply elem_of_nil in Hp.
    + by apply (Hlive h).
  - intros h1 h2 me1 me2 p [[<- <-]|[_ H1]]%lookup_insert_Some
                            [[<- <-]|[_ H2]]%lookup_insert_Some; simpl;
      try (by intros ?%elem_of_nil); try (by intros _ ?%elem_of_nil).
    by apply Hpriv.
Qed.

Lemma heap_ok_add h create w w' :
  heap_ok w → add h create w = Return w' → heap_ok w'.
Proof.
  intros [Hlive Hpriv] (me & Hme & ->)%add_inv. cbv zeta.
  pose proof (fresh_pool w) as Hfresh.
  set (p := fresh (dom (pools w))) in *.
  assert (∀ h' me', clusters w !! h' = Some me' → p ∉ cluster me') as Hnew.
  { intros h' me' Hme' Hin. destruct (Hlive _ _ Hme') as [_ Hl].
    destruct (Hl _ Hin) as [? ?]. congruence. }
  split; simpl.
  - intros h' me' [[<- <-]|[_ Hme']]%lookup_insert_Some; simpl.
    + destruct (Hlive _ _ Hme) as [Hnd Hl]. split.
      * apply NoDup_app. split; [done|]. split; [|apply NoDup_singleton].
        intros q Hq ->%list_elem_of_singleton. by eapply Hnew.
      * intros q [Hq| ->%list_elem_of_singleton]%elem_of_app.
        -- destruct (decide (q = p)) as [->|]; [by rewrite lookup_insert_eq|].
           rewrite lookup_insert_ne by done. by apply Hl.
        -- by rewrite lookup_insert_eq.
    + destruct (Hlive _ _ Hme') as [Hnd Hl]. split; [done|].
      intros q Hq. destruct (decide (q = p)) as [->|]; [by rewrite lookup_insert_eq|].
      rewrite lookup_insert_ne by done. by apply Hl.
  - intros h1 h2 me1 me2 q [[<- <-]|[? H1]]%lookup_insert_Some
                            [[<- <-]|[? H2]]%lookup_insert_Some; simpl; [done|..].
    + intros [Hq| ->%list_elem_of_singleton]%elem_of_app Hq2.
      * by eapply Hpriv.
      * by destruct (Hnew _ _ H2).
    + intros Hq1 [Hq| ->%list_elem_of_singleton]%elem_of_app.
      * by eapply Hpriv.
      * by destruct (Hnew _ _ H1).
    + by apply Hpriv.
Qed.

Lemma heap_ok_set_index h me i w :
  clusters w !! h = Some me → heap_ok w → heap_ok (set_index h me i w).
Proof.
  intros Hme [Hlive Hpriv]. split; simpl.
  - intros h' me' [[<- <-]|[_ Hme']]%lookup_insert_Some; simpl; eauto.
  - intros h1 h2 me1 me2 q [[<- <-]|[? H1]]%lookup_insert_Some
                            [[<- <-]|[? H2]]%lookup_insert_Some; simpl;
      [done|by eapply Hpriv..].
Qed.

Lemma heap_ok_set_pool_state p po st w :
  pools w !! p = Some po → heap_ok w → heap_ok (set_pool_state p po st w).
Proof.
  intros Hp [Hlive Hpriv]. split; simpl; [|done].
  intros h me Hme. destruct (Hlive _ _ Hme) as [Hnd Hl]. split; [done|].
  intros q Hq. destruct (decide (q = p)) as [->|]; [by rewrite lookup_insert_eq|].
  rewrite lookup_insert_ne by done. by apply Hl.
Qed.

Lemma heap_ok_acquire h priority w r :
  heap_ok w → acquire h priority w = Return r → heap_ok (a_world r).
Proof.
  intros Hok (me & Hme & [[_ ->]|(i & p & po & tr & _ & _ & Hpo & ->)])%acquire_inv;
    [done|]. simpl.
  apply heap_ok_set_pool_state; [done|]. by apply heap_ok_set_index.
Qed.

Lemma heap_ok_step w w' : step w w' → heap_ok w → heap_ok w'.
Proof.
  destruct 1; eauto using heap_ok_create, heap_ok_add, heap_ok_acquire,
    heap_ok_set_pool_state.
Qed.

(** *** The Cursor invariant *)

Lemma cursors_ok_step w w' : step w w' → cursors_ok w → cursors_ok w'.
Proof.
  intros Hstep Hok.
  destruct Hstep as [f w _|h c w w' Hadd|h q w r Hacq|p po st w Hp].
  - intros h me Hme. simpl in Hme.
    apply lookup_insert_Some in Hme as [[<- <-]|[_ Hme]]; [|by eapply Hok].
    unfold cursor_ok. simpl. lia.
  - apply add_inv in Hadd as (me & Hme & ->). cbv zeta.
    intros h' me' Hme'. simpl in Hme'.
    apply lookup_insert_Some in Hme' as [[<- <-]|[_ Hme']]; [|by eapply Hok].
    specialize (Hok _ _ Hme). unfold cursor_ok in *. simpl.
    rewrite length_app. simpl. lia.
  - apply acquire_inv in Hacq
      as (me & Hme & [[_ ->]|(i & p & po & tr & Hi & _ & _ & ->)]); [done|].
    intros h' me' Hme'. simpl in Hme'.
    apply lookup_insert_Some in Hme' as [[<- <-]|[_ Hme']]; [|by eapply Hok].
    unfold cursor_ok. simpl.
    pose proof (Z.mod_pos_bound (i + 1) (Z.of_nat (length (cluster me)))). lia.
  - intros h me Hme. by eapply Hok.
Qed.

Lemma steps_ok w0 w :
  rtc step w0 w → heap_ok w0 ∧ cursors_ok w0 → heap_ok w ∧ cursors_ok w.
Proof.
  induction 1 as [w|w1 w2 w3 Hstep _ IH]; [done|].
  intros [? ?]. apply IH. eauto using heap_ok_step, cursors_ok_step.
Qed.

Lemma initial_ok w0 : initial w0 → heap_ok w0 ∧ cursors_ok w0.
Proof.
  intros [Hp Hc]. unfold heap_ok, cursors_ok. rewrite Hc.
  split; [split|]; intros; simplify_map_eq.
Qed.

Lemma reachable_ok w : reachable w → heap_ok w ∧ cursors_ok w.
Proof. intros (w0 & Hinit & Hsteps). eauto using steps_ok, initial_ok. Qed.

End HeapEffects.

(** ** Counters, sums and copies *)

Section Counters.
Import JS ClusterPool.
Context `{PM : PoolModule}.

Lemma counters_is_Some f (w : world) h me :
  heap_ok w → clusters w !! h = Some me →
  ∃ ns, counters f w (cluster me) = Some ns.
Proof.
  intros [Hlive _] Hme. destruct (Hlive _ _ Hme) as [_ Hl].
  apply (mapM_is_Some_2 (λ p, f ∘ p_state <$> pools w !! p)).
  apply Forall_forall. intros p Hp. destruct (Hl _ Hp) as [po Hpo].
  simpl. rewrite Hpo. by eexists.
Qed.

(** Counters only depend on the pools of the array. *)
Lemma counters_ext f (w w' : world) c :
  (∀ p, p ∈ c → pools w' !! p = pools w !! p) →
  counters f w' c = counters f w c.
Proof.
  intros H. apply Forall_mapM_ext, Forall_forall. intros p Hp. by rewrite H.
Qed.

(** A pool of the array changing state changes its own counter only. *)
Lemma counters_update f (w : world) c ns i p po st h me x :
  NoDup c → c !! i = Some p → counters f w c = Some ns →
  counters f (set_pool_state p po st (set_index h me x w)) c
  = Some (<[i := f st]> ns).
Proof.
  intros Hnd Hp Hns. apply mapM_Some. apply mapM_Some in Hns.
  apply Forall2_same_length_lookup. split.
  { rewrite length_insert. by eapply Forall2_length. }
  intros j q n Hq Hn. simpl.
  destruct (decide (j = i)) as [->|Hne].
  - assert (q = p) as -> by congruence.
    rewrite lookup_insert_eq. simpl.
    rewrite list_lookup_insert_eq in Hn; [congruence|].
    apply Forall2_length in Hns. apply lookup_lt_Some in Hp. lia.
  - rewrite list_lookup_insert_ne in Hn by done.
    rewrite lookup_insert_ne.
    + by apply (Forall2_lookup_lr _ _ _ _ _ _ Hns Hq Hn).
    + intros <-. apply Hne. by eapply NoDup_lookup.
Qed.

(** The [forEach] sum is the sum of the counters. *)
Lemma sum_pools_from f (w : world) c : ∀ ns n,
  counters f w c = Some ns →
  foldl (λ count p, n ← count; po ← pools w !! p; Some (n + f (p_state po))%nat)
        (Some n) c
  = Some (n + sum_list ns)%nat.
Proof.
  induction c as [|p c IH]; intros ns n Hns; apply mapM_Some in Hns.
  - inversion Hns. simpl. f_equal. lia.
  - inversion Hns as [|? m ? ns' Hp Hrest]; subst. simpl.
    destruct (pools w !! p) as [po|]; [|done]. simplify_eq/=.
    rewrite (IH ns') by by apply mapM_Some. f_equal. lia.
Qed.

Lemma sum_pools_counters f (w : world) c ns :
  counters f w c = Some ns → sum_pools f w c = Some (sum_list ns).
Proof. intros H. unfold sum_pools. by rewrite (sum_pools_from f w c ns). Qed.

Lemma sum_pools_ext f (w w' : world) c :
  (∀ p, p ∈ c → pools w' !! p = pools w !! p) →
  sum_pools f w' c = sum_pools f w c.
Proof.
  unfold sum_pools. generalize (Some 0%nat).
  induction c as [|p c IH]; intros acc H; [done|]. simpl.
  rewrite (H p) by (apply elem_of_cons; by left).
  apply IH. intros q Hq. apply H. apply elem_of_cons. by right.
Qed.

(** A cluster whose object and pools are the same in two heaps reports
    the same. *)
Lemma same_cluster_intro h (w w' : world) :
  clusters w' !! h = clusters w !! h →
  (∀ me p, clusters w !! h = Some me → p ∈ cluster me →
     pools w' !! p = pools w !! p) →
  same_cluster h w w'.
Proof.
  intros Hc Hp. split; [done|]. split; [done|].
  unfold statistics, getClusterSize, getPoolSize, availableObjectsCount,
    waitingClientsCount.
  rewrite Hc. destruct (clusters w !! h) as [me|] eqn:Hme; [|done]. simpl.
  by rewrite !(sum_pools_ext _ w w') by eauto.
Qed.

(** The [for ... in] loop of [add] builds a copy of the object. *)
Lemma foldl_insert_lookup (l : list (string * val)) : ∀ (acc : obj) k,
  NoDup l.*1 →
  foldl (λ pool_factory '(i, v), <[i := v]> pool_factory) acc l !! k
  = match (list_to_map l : obj) !! k with Some v => Some v | None => acc !! k end.
Proof.
  induction l as [|[i v] l IH]; intros acc k Hnd; [done|].
  apply NoDup_cons in Hnd as [Hi Hnd]. simpl. rewrite IH by done.
  destruct (decide (k = i)) as [->|Hne].
  - rewrite (not_elem_of_list_to_map_1 _ _ Hi). by rewrite !lookup_insert_eq.
  - by rewrite !lookup_insert_ne.
Qed.

Lemma copy_fields_id (factory : obj) : copy_fields factory = factory.
Proof.
  apply map_eq. intros k. unfold copy_fields.
  rewrite foldl_insert_lookup by apply NoDup_fst_map_to_list.
  rewrite list_to_map_to_list. by destruct (factory !! k).
Qed.

(** Along a step a cluster keeps its handle, and its Cursor stays a
    position of its array. *)
Lemma step_cursor h w w' :
  step w w' →
  (∃ me, clusters w !! h = Some me ∧ cursor_ok me) →
  ∃ me', clusters w' !! h = Some me' ∧ cursor_ok me'.
Proof.
  intros Hstep (me & Hme & Hok).
  destruct Hstep as [f w _|h1 c w w' Hadd|h1 q w r Hacq|p po st w Hp]; simpl.
  - exists me. split; [|done]. rewrite lookup_insert_ne; [done|].
    intros <-. by rewrite fresh_cluster in Hme.
  - apply add_inv in Hadd as (me1 & Hme1 & ->). cbv zeta. simpl.
    destruct (decide (h1 = h)) as [->|Hne].
    + rewrite lookup_insert_eq. eexists. split; [done|].
      assert (me1 = me) as -> by congruence.
      unfold cursor_ok in *. simpl. rewrite length_app. simpl. lia.
    + rewrite lookup_insert_ne by done. eauto.
  - apply acquire_inv in Hacq
      as (me1 & Hme1 & [[_ ->]|(i & p & po & tr & Hi & _ & _ & ->)]); [by eauto|].
    simpl. destruct (decide (h1 = h)) as [->|Hne].
    + rewrite lookup_insert_eq. eexists. split; [done|].
      assert (me1 = me) as -> by congruence.
      unfold cursor_ok. simpl.
      pose proof (Z.mod_pos_bound (i + 1) (Z.of_nat (length (cluster me)))). lia.
    + rewrite lookup_insert_ne by done. eauto.
  - eauto.
Qed.

Lemma steps_cursor h w w' :
  rtc step w w' →
  (∃ me, clusters w !! h = Some me ∧ cursor_ok me) →
  ∃ me', clusters w' !! h = Some me' ∧ cursor_ok me'.
Proof. induction 1; eauto using step_cursor. Qed.

End Counters.

(** ** The module on the example clusters *)

Section ExampleFacts.
Import JS ClusterPool Example.
#[local] Existing Instance CountingPool.module.

Example idle_rotation :
  selections (acquires 1%positive None 4 w_three)
  = Some [Some 0; Some 1; Some 2; Some 0].
Proof. vm_compute. reflexivity. Qed.

Example fallback_5_2_2 :
  shown (acquire 1%positive None w_loaded)
  = Some (Some 1, [0; 1; 2],
          [EvWaitingClientsCount 0 1; EvWaitingClientsCount 1 2;
           EvWaitingClientsCount 2 3; EvPoolAcquire 2 None]).
Proof. vm_compute. reflexivity. Qed.

Example priority_not_forwarded :
  shown (acquire 1%positive (Some 7) w_three)
  = Some (Some 0, [0], [EvWaitingClientsCount 0 1; EvPoolAcquire 1 None]).
Proof. vm_compute. reflexivity. Qed.

Example cursor_astray_throws :
  shown (acquire 1%positive None w_astray) = None.
Proof. vm_compute. reflexivity. Qed.

Example totals_loaded :
  statistics 1%positive w_loaded
  = (Some 3, Some 12, Some 0, Some 9)%nat.
Proof. vm_compute. reflexivity. Qed.

Example holes_then_filled :
  array_set (array_set [] 2 7) 0 5 = [Some 5; None; Some 7]%nat.
Proof. reflexivity. Qed.

Example min_with_hole : Underscore.min [Some 5; None; Some 7]%nat = NaN.
Proof. reflexivity. Qed.

Example indexOf_first_min :
  Underscore.indexOf [Some 5; Some 2; Some 2]%nat
                     (Underscore.min [Some 5; Some 2; Some 2]%nat) = 1.
Proof. reflexivity. Qed.

Example numeric_string_equals_minus_one :
  loose_eq_string_number "-1" (-1) = true.
Proof. reflexivity. Qed.

Example type_name_differs_from_minus_one :
  loose_eq_string_number (typeof (Some (-1))) (-1) = false.
Proof. reflexivity. Qed.

Lemma add_to_step h f w :
  is_Some (clusters w !! h) → step w (add_to h f w).
Proof.
  intros [me Hme]. unfold add_to.
  destruct (add h (VFun f) w) as [w'|w'] eqn:Hadd; [by eapply step_add|].
  unfold add in Hadd. rewrite Hme in Hadd. cbv zeta in Hadd.
  by destruct (Pool _).
Qed.

Lemma with_waiting_step p n w : rtc step w (with_waiting p n w).
Proof.
  unfold with_waiting. destruct (pools w !! p) eqn:Hp; [|done].
  apply rtc_once. by apply step_member.
Qed.

Lemma w_empty_reachable : reachable w_empty.
Proof.
  exists w_fresh. split; [done|]. apply rtc_once, step_create.
  intros l [= <-]. by eexists.
Qed.

Lemma w_three_steps : rtc step w_empty w_three.
Proof.
  unfold w_three.
  apply (rtc_l _ _ (add_to 1 1 w_empty));
    [apply (add_to_step 1 1 w_empty); by eexists|].
  apply (rtc_l _ _ (add_to 1 2 (add_to 1 1 w_empty)));
    [apply (add_to_step 1 2); by eexists|].
  apply rtc_once. apply (add_to_step 1 3). by eexists.
Qed.

Lemma w_three_reachable : reachable w_three.
Proof.
  destruct w_empty_reachable as (w0 & Hinit & Hsteps).
  exists w0. split; [done|]. etrans; [done|apply w_three_steps].
Qed.

Lemma w_loaded_reachable : reachable w_loaded.
Proof.
  destruct w_three_reachable as (w0 & Hinit & Hsteps).
  exists w0. split; [done|]. unfold w_loaded.
  repeat (etrans; [|apply with_waiting_step]). done.
Qed.

Lemma w_pair_reachable : reachable w_pair.
Proof.
  destruct w_three_reachable as (w0 & Hinit & Hsteps).
  exists w0. split; [done|]. unfold w_pair.
  etrans; [done|].
  apply (rtc_l _ _ (create (Some 1%positive) w_three).2).
  { apply step_create. intros l [= <-]. by eexists. }
  apply rtc_once. apply (add_to_step 2 4). by eexists.
Qed.

End ExampleFacts.

(** ** Consequences of the selection rules *)

Section Rules.
Import JS ClusterPool.
Context `{PM : PoolModule}.

(** In a reachable heap [acquire] finds what it needs: the counts of all
    Members can be read, no pool sits twice in the array, and the Cursor
    is a position. *)
Lemma reachable_ready (w : world) h me :
  reachable w → clusters w !! h = Some me → cluster me ≠ [] →
  (∃ ws, waitings w (cluster me) = Some ws) ∧
  NoDup (cluster me) ∧
  0 ≤ index me < Z.of_nat (length (cluster me)).
Proof.
  intros [Hheap Hcur]%reachable_ok Hme Hne. split; [|split].
  - by eapply counters_is_Some.
  - destruct Hheap as [Hlive _]. by destruct (Hlive _ _ Hme).
  - specialize (Hcur _ _ Hme). unfold cursor_ok in Hcur.
    destruct (cluster me); simpl in *; [done|lia].
Qed.

(** The first idle Member of the walk, when there is one, is the Member
    selected, and the walk went no further. *)
Lemma selection_first ws cur i rd k :
  selection_rule ws cur i rd →
  (k < length ws)%nat →
  ws !! Z.to_nat (visit (length ws) cur k) = Some 0%nat →
  (∀ j, (j < k)%nat → ws !! Z.to_nat (visit (length ws) cur j) ≠ Some 0%nat) →
  i = visit (length ws) cur k ∧ rd = visit (length ws) cur <$> seq 0 (S k).
Proof.
  intros [(k' & Hk' & -> & Hz' & Hnz' & ->)|[Hnone _]] Hk Hz Hnz.
  - assert (k' = k) as ->; [|done].
    destruct (Nat.lt_trichotomy k' k) as [Hlt|[?|Hlt]]; [|done|].
    + by destruct (Hnz _ Hlt).
    + by destruct (Hnz' _ Hlt).
  - by destruct (Hnone _ Hz).
Qed.

Lemma selection_none ws cur i rd :
  selection_rule ws cur i rd → (∀ j, ws !! j ≠ Some 0%nat) →
  least_loaded ws i ∧ rd = visit (length ws) cur <$> seq 0 (length ws).
Proof.
  intros [(k & _ & _ & Hz & _)|(_ & Hleast & Hrd)] Hnone; [|done].
  by destruct (Hnone _ Hz).
Qed.

Lemma least_loaded_unique ws i i' :
  0 ≤ i → 0 ≤ i' → least_loaded ws i → least_loaded ws i' → i = i'.
Proof.
  intros Hi Hi' (m & Hm & Hmin & Hlow) (m' & Hm' & Hmin' & Hlow').
  destruct (Z.lt_trichotomy i i') as [Hlt|[?|Hlt]]; [|done|].
  - pose proof (Hmin _ _ Hm'). pose proof (Hlow' (Z.to_nat i) m ltac:(lia) Hm). lia.
  - pose proof (Hmin' _ _ Hm). pose proof (Hlow (Z.to_nat i') m' ltac:(lia) Hm'). lia.
Qed.

(** [acquire] when the Member under the Cursor is idle. *)
Lemma acquire_at_cursor h priority (w : world) me ws :
  clusters w !! h = Some me →
  waitings w (cluster me) = Some ws →
  NoDup (cluster me) →
  0 ≤ index me < Z.of_nat (length (cluster me)) →
  ws !! Z.to_nat (index me) = Some 0%nat →
  ∃ p po r,
    cluster me !! Z.to_nat (index me) = Some p ∧ pools w !! p = Some po ∧
    acquire h priority w = Return r ∧
    a_selected r = Some (index me) ∧
    clusters (a_world r) !! h
    = Some (ClusterObj (cluster me)
              ((index me + 1) `mod` Z.of_nat (length (cluster me))) (factory me)) ∧
    waitings (a_world r) (cluster me)
    = Some (<[Z.to_nat (index me) :=
                pool_waitingClientsCount (pool_acquire None (p_state po))]> ws).
Proof.
  intros Hme Hws Hnd Hcur Hz.
  pose proof (counters_length _ _ _ _ Hws) as Hlen.
  assert (cluster me ≠ []) as Hne by (destruct (cluster me); simpl in *; [lia|done]).
  destruct (acquire_spec h priority w me ws Hme Hws Hne Hcur)
    as (i & p & po & tr & Hacq & Hi & Hp & Hpo & Hrule).
  destruct (selection_first ws (index me) i (reads tr) 0 Hrule) as [-> _].
  { lia. }
  { rewrite Hlen, visit_0 by done. done. }
  { intros; lia. }
  rewrite Hlen, visit_0 in * by done.
  exists p, po. eexists. split; [done|]. split; [done|]. split; [done|].
  simpl. split; [done|]. split.
  - by rewrite lookup_insert_eq.
  - by apply counters_update.
Qed.

End Rules.

(** * The claims *)

Section Claims.
Import JS ClusterPool.
Context `{PM : PoolModule}.

(** C1 (as amended).  On a cluster with N >= 1 Members, [acquire] walks
    the array in a circle from the Cursor: it reads the waiting count at
    index (Cursor + k) mod N for k = 0, 1, ..., stops at the first Member
    whose count is 0 and selects it (reading nothing further); when no
    count is 0 it has read all N.  In particular, with three Members
    whose counts are 0 and the Cursor at 0, three calls in a row select
    0, 1, 2, and a fourth selects 0 again provided the waiting count of
    the first Member is still 0 after it was given the first request. *)
Theorem acquire_circular_scan h priority (w : world) me :
  reachable w → clusters w !! h = Some me → cluster me ≠ [] →
  let n := length (cluster me) in
  let walk (k : nat) := (index me + Z.of_nat k) `mod` Z.of_nat n in
  ∃ ws r,
    waitings w (cluster me) = Some ws ∧
    acquire h priority w = Return r ∧
    (∀ k, (k < n)%nat →
       ws !! Z.to_nat (walk k) = Some 0%nat →
       (∀ j, (j < k)%nat → ws !! Z.to_nat (walk j) ≠ Some 0%nat) →
       a_selected r = Some (walk k) ∧
       reads (a_trace r) = walk <$> seq 0 (S k)) ∧
    ((∀ j, ws !! j ≠ Some 0%nat) →
       reads (a_trace r) = walk <$> seq 0 n) ∧
    (ws = [0; 0; 0]%nat → index me = 0 →
     (∃ w3, acquires h priority 3 w = Return (w3, [Some 0; Some 1; Some 2])) ∧
     ((∀ p po, cluster me !! 0%nat = Some p → pools w !! p = Some po →
         pool_waitingClientsCount (pool_acquire None (p_state po)) = 0%nat) →
      ∃ w', acquires h priority 4 w
            = Return (w', [Some 0; Some 1; Some 2; Some 0]))).
Proof.
  intros Hreach Hme Hne n walk.
  destruct (reachable_ready w h me) as ((ws & Hws) & Hnd & Hcur); [done..|].
  pose proof (counters_length _ _ _ _ Hws) as Hlen.
  destruct (acquire_spec h priority w me ws Hme Hws Hne Hcur)
    as (i & p & po & tr & Hacq & Hi & Hp & Hpo & Hrule).
  change walk with (visit n (index me)).
  eexists ws, _. split; [done|]. split; [exact Hacq|].
  cbn [a_selected a_trace]. rewrite reads_pool_acquire.
  fold n in Hlen. split; [|split].
  - intros k Hk Hz Hnz. rewrite <- Hlen in *.
    by destruct (selection_first ws (index me) i (reads tr) k) as [-> ->].
  - intros Hnone. rewrite <- Hlen.
    by destruct (selection_none ws (index me) i (reads tr)) as [_ ->].
  - intros -> Hidx. clear dependent i p po tr.
    destruct (cluster me) as [|a [|b [|c [|]]]] eqn:Hc; try done.
    destruct (acquire_at_cursor h priority w me [0; 0; 0]%nat)
      as (p1 & po1 & r1 & Hp1 & Hpo1 & Hacq1 & Hsel1 & Hcl1 & Hws1);
      [done|by rewrite Hc|by rewrite Hc|by rewrite Hc|by rewrite Hidx|].
    rewrite Hc, Hidx in *. simpl in Hp1, Hcl1, Hws1.
    destruct (acquire_at_cursor h priority (a_world r1) _ _ Hcl1 Hws1)
      as (p2 & po2 & r2 & _ & _ & Hacq2 & Hsel2 & Hcl2 & Hws2);
      [done|by simpl|done|].
    simpl in Hsel2, Hcl2, Hws2.
    destruct (acquire_at_cursor h priority (a_world r2) _ _ Hcl2 Hws2)
      as (p3 & po3 & r3 & _ & _ & Hacq3 & Hsel3 & Hcl3 & Hws3);
      [done|by simpl|done|].
    simpl in Hsel3, Hcl3, Hws3.
    split.
    + exists (a_world r3). cbn [acquires].
      rewrite Hacq1, Hacq2, Hacq3. by rewrite Hsel1, Hsel2, Hsel3.
    + intros Hstay. rewrite (Hstay _ _ Hp1 Hpo1) in Hws3.
      destruct (acquire_at_cursor h priority (a_world r3) _ _ Hcl3 Hws3)
        as (p4 & po4 & r4 & _ & _ & Hacq4 & Hsel4 & _ & _);
        [done|by simpl|done|].
      simpl in Hsel4.
      exists (a_world r4). cbn [acquires].
      rewrite Hacq1, Hacq2, Hacq3, Hacq4.
      by rewrite Hsel1, Hsel2, Hsel3, Hsel4.
Qed.

(** C2.  On a cluster with N >= 1 Members none of which has waiting
    count 0, [acquire] selects the Member with the least waiting count of
    all N, the lowest index among equals, wherever the Cursor stood when
    the scan started; with counts [5,2,2] that is index 1. *)
Theorem acquire_least_loaded h priority (w : world) me :
  reachable w → clusters w !! h = Some me → cluster me ≠ [] →
  let n := Z.of_nat (length (cluster me)) in
  ∃ ws,
    waitings w (cluster me) = Some ws ∧
    ((∀ j, ws !! j ≠ Some 0%nat) →
     ∃ r i m,
       acquire h priority w = Return r ∧
       a_selected r = Some i ∧ 0 ≤ i < n ∧
       ws !! Z.to_nat i = Some m ∧
       (∀ j x, ws !! j = Some x → (m ≤ x)%nat) ∧
       (∀ j x, (j < Z.to_nat i)%nat → ws !! j = Some x → (m < x)%nat) ∧
       (∀ cur, 0 ≤ cur < n →
          ∃ r', acquire h priority (set_index h me cur w) = Return r' ∧
                a_selected r' = Some i) ∧
       (ws = [5; 2; 2]%nat → i = 1)).
Proof.
  intros Hreach Hme Hne n.
  destruct (reachable_ready w h me) as ((ws & Hws) & Hnd & Hcur); [done..|].
  exists ws. split; [done|]. intros Hnone.
  destruct (acquire_spec h priority w me ws Hme Hws Hne Hcur)
    as (i & p & po & tr & Hacq & Hi & Hp & Hpo & Hrule).
  destruct (selection_none _ _ _ _ Hrule Hnone) as [Hleast _].
  pose proof Hleast as (m & Hm & Hmin & Hlow).
  eexists _, i, m. split; [exact Hacq|]. split; [done|].
  split; [done|]. split; [done|]. split; [done|]. split; [done|]. split.
  - intros cur Hcur'.
    destruct (acquire_spec h priority (set_index h me cur w)
                (ClusterObj (cluster me) cur (factory me)) ws)
      as (i' & p' & po' & tr' & Hacq' & Hi' & _ & _ & Hrule'); [..|done|done|].
    { simpl. by rewrite lookup_insert_eq. }
    { done. }
    destruct (selection_none _ _ _ _ Hrule' Hnone) as [Hleast' _].
    eexists. split; [exact Hacq'|]. simpl. f_equal.
    simpl in Hi'. apply (least_loaded_unique ws); [lia|lia|done|done].
  - intros ->. apply (least_loaded_unique [5; 2; 2]%nat); [lia|lia|done|].
    exists 2%nat. split; [done|]. split.
    + intros [|[|[|j]]] x Hx; simplify_eq/=; lia.
    + intros [|j] x Hj Hx; simplify_eq/=; lia.
Qed.

(** C3.  On a cluster with N >= 1 Members, [acquire] selects an index i
    of the array, the one its selection rules give, hands the request to
    the pool found at i, and leaves the Cursor at (i + 1) mod N. *)
Theorem acquire_advances_cursor h priority (w : world) me :
  reachable w → clusters w !! h = Some me → cluster me ≠ [] →
  ∃ ws r i p me',
    waitings w (cluster me) = Some ws ∧
    acquire h priority w = Return r ∧
    a_selected r = Some i ∧
    0 ≤ i < Z.of_nat (length (cluster me)) ∧
    selection_rule ws (index me) i (reads (a_trace r)) ∧
    cluster me !! Z.to_nat i = Some p ∧
    last (a_trace r) = Some (EvPoolAcquire p None) ∧
    clusters (a_world r) !! h = Some me' ∧
    cluster me' = cluster me ∧
    index me' = (i + 1) `mod` Z.of_nat (length (cluster me)).
Proof.
  intros Hreach Hme Hne.
  destruct (reachable_ready w h me) as ((ws & Hws) & Hnd & Hcur); [done..|].
  destruct (acquire_spec h priority w me ws Hme Hws Hne Hcur)
    as (i & p & po & tr & Hacq & Hi & Hp & Hpo & Hrule).
  eexists ws, _, i, p, _. split; [done|]. split; [exact Hacq|].
  cbn [a_selected a_trace a_world]. rewrite reads_pool_acquire, last_snoc.
  split; [done|]. split; [done|]. split; [done|]. split; [done|].
  split; [done|]. simpl. rewrite lookup_insert_eq. done.
Qed.

(** C4.  On a cluster without Members, [acquire] calls the callback with
    the error and does nothing else: nothing is called on any pool, and
    the heap (Cursor and array included) is the one it started from. *)
Theorem acquire_empty_cluster h priority (w : world) me :
  clusters w !! h = Some me → cluster me = [] →
  acquire h priority w
  = Return (Acquired w [EvCallbackError "No servers added to cluster yet"] None).
Proof.
  intros Hme Hc. unfold acquire. rewrite Hme, Hc. done.
Qed.

(** C5 (where the code departs from the claim).  Whatever priority the
    caller passes, the selected pool's [acquire] is called without one. *)
Theorem acquire_drops_priority h (priority : Z) (w : world) me :
  reachable w → clusters w !! h = Some me → cluster me ≠ [] →
  ∃ r p,
    acquire h (Some priority) w = Return r ∧
    last (a_trace r) = Some (EvPoolAcquire p None) ∧
    ∀ q x, EvPoolAcquire q x ∈ a_trace r → x = None.
Proof.
  intros Hreach Hme Hne.
  destruct (reachable_ready w h me) as ((ws & Hws) & Hnd & Hcur); [done..|].
  destruct (select_spec w _ _ _ Hws Hne Hcur)
    as (useIndex & pw & tr & i & Hscan & Hi & _ & Hrange & _).
  destruct (member_counters _ _ _ _ _ Hws Hrange) as (p & po & Hm & _).
  assert (∀ todo t a tr0 res a' tr',
            scan w (cluster me) todo t a tr0 = Some (res, a', tr') →
            (∀ q x, EvPoolAcquire q x ∈ tr0 → x = None) →
            ∀ q x, EvPoolAcquire q x ∈ tr' → x = None) as Hscan_tr.
  { induction todo as [|todo IH]; intros t a tr0 res a' tr' Hs Htr0; simpl in Hs.
    - by simplify_eq.
    - destruct (member w (cluster me) t) as [[p0 po0]|]; [|done].
      assert (∀ q x, EvPoolAcquire q x ∈ tr0 ++ [EvWaitingClientsCount t p0] →
                     x = None) as Htr1.
      { intros q x [?|Hin%list_elem_of_singleton]%elem_of_app; [eauto|done]. }
      case_decide; [by simplify_eq|]. by eapply IH. }
  exists (Acquired
            (set_pool_state p po (pool_acquire None (p_state po))
               (set_index h me ((i + 1) `mod` Z.of_nat (length (cluster me))) w))
            (tr ++ [EvPoolAcquire p None]) (Some i)), p.
  split; [|split].
  - unfold acquire. rewrite Hme.
    rewrite decide_False by (destruct (cluster me); simpl in *; [done|lia]).
    rewrite Hscan. cbv zeta. rewrite <- Hi.
    by rewrite typeof_never_minus_one, Hm, set_index_twice, wrap_mod.
  - simpl. by rewrite last_snoc.
  - simpl. intros q x [Hin|Hin%list_elem_of_singleton]%elem_of_app.
    + eapply (Hscan_tr _ _ _ _ _ _ _ Hscan); [|done].
      intros ? ? []%elem_of_nil.
    + by simplify_eq.
Qed.

(** C6.  From a cluster as [create] returns it (Cursor 0, no Member),
    whatever calls follow, the Cursor of a cluster that has at least one
    Member is a position of its array: [add] appends a Member and leaves
    the Cursor alone, and [acquire] on a cluster with Members writes a
    Cursor in [0, N). *)
Theorem cursor_invariant f (w0 w : world) :
  rtc step (create f w0).2 w →
  let h := (create f w0).1 in
  clusters (create f w0).2 !! h = Some (ClusterObj [] 0 f) ∧
  (∃ me, clusters w !! h = Some me ∧
         (cluster me ≠ [] → 0 ≤ index me < Z.of_nat (length (cluster me)))) ∧
  (∀ producer w', add h producer w = Return w' →
     ∃ me p, clusters w !! h = Some me ∧
             clusters w' !! h
             = Some (ClusterObj (cluster me ++ [p]) (index me) (factory me))) ∧
  (∀ priority r me, acquire h priority w = Return r →
     clusters w !! h = Some me → cluster me ≠ [] →
     ∃ me', clusters (a_world r) !! h = Some me' ∧
            cluster me' = cluster me ∧
            0 ≤ index me' < Z.of_nat (length (cluster me))).
Proof.
  intros Hsteps h.
  assert (clusters (create f w0).2 !! h = Some (ClusterObj [] 0 f))
    as Hnew by apply lookup_insert_eq.
  split; [done|]. split; [|split].
  - destruct (steps_cursor h _ _ Hsteps) as (me & Hme & Hok).
    { eexists. split; [exact Hnew|]. unfold cursor_ok. simpl. lia. }
    exists me. split; [done|]. intros Hne. unfold cursor_ok in Hok.
    destruct (cluster me); simpl in *; [done|lia].
  - intros c w' (me & Hme & ->)%add_inv. cbv zeta. simpl.
    eexists me, _. split; [done|]. by rewrite lookup_insert_eq.
  - intros priority r me
      (me1 & Hme1 & [[Hc _]|(i & p & po & tr & Hi & _ & _ & ->)])%acquire_inv
      Hme Hne; simplify_eq.
    simpl. rewrite lookup_insert_eq. eexists. split; [done|]. simpl.
    split; [done|]. apply Z.mod_pos_bound. lia.
Qed.

(** C7.  [getClusterSize] returns the number of Members, and
    [getPoolSize], [availableObjectsCount] and [waitingClientsCount]
    return the sum, over the Members, of the launched, available and
    waiting count each Member has in the heap at the time of the call. *)
Theorem totals_are_sums h (w : world) me :
  reachable w → clusters w !! h = Some me →
  ∃ launched available waiting,
    Forall2 (λ p n, ∃ po, pools w !! p = Some po ∧ n = pool_getPoolSize (p_state po))
            (cluster me) launched ∧
    Forall2 (λ p n, ∃ po, pools w !! p = Some po ∧
                          n = pool_availableObjectsCount (p_state po))
            (cluster me) available ∧
    Forall2 (λ p n, ∃ po, pools w !! p = Some po ∧
                          n = pool_waitingClientsCount (p_state po))
            (cluster me) waiting ∧
    getClusterSize h w = Some (length (cluster me)) ∧
    getPoolSize h w = Some (sum_list launched) ∧
    availableObjectsCount h w = Some (sum_list available) ∧
    waitingClientsCount h w = Some (sum_list waiting).
Proof.
  intros [Hheap _]%reachable_ok Hme.
  assert (∀ f ns, counters f w (cluster me) = Some ns →
            Forall2 (λ p n, ∃ po, pools w !! p = Some po ∧ n = f (p_state po))
                    (cluster me) ns) as Hcount.
  { intros f ns Hns%mapM_Some. eapply Forall2_impl; [exact Hns|].
    intros p n Hp. simpl in Hp. destruct (pools w !! p) as [po|]; [|done].
    exists po. split; [done|]. by simplify_eq/=. }
  destruct (counters_is_Some pool_getPoolSize w h me) as [l Hl]; [done..|].
  destruct (counters_is_Some pool_availableObjectsCount w h me) as [a Ha]; [done..|].
  destruct (counters_is_Some pool_waitingClientsCount w h me) as [q Hq]; [done..|].
  exists l, a, q.
  unfold getClusterSize, getPoolSize, availableObjectsCount, waitingClientsCount.
  rewrite Hme. simpl.
  rewrite (sum_pools_counters _ _ _ _ Hl), (sum_pools_counters _ _ _ _ Ha),
    (sum_pools_counters _ _ _ _ Hq).
  eauto 10.
Qed.

(** C8.  Clusters made by separate calls of [create] share nothing:
    [create] never returns the handle of an existing cluster, and a call
    of [add] or [acquire] on one cluster leaves every other cluster with
    the same Cursor and array, the same state of each of its Members and
    the same four reports. *)
Theorem clusters_isolated h1 h2 (w : world) :
  reachable w → h1 ≠ h2 →
  (∀ f h me, clusters w !! h = Some me → (create f w).1 ≠ h) ∧
  (∀ producer w', add h1 producer w = Return w' → same_cluster h2 w w') ∧
  (∀ priority r, acquire h1 priority w = Return r →
     same_cluster h2 w (a_world r)).
Proof.
  intros [[Hlive Hpriv] _]%reachable_ok Hne. split; [|split].
  - intros f h me Hme Heq. simpl in Heq. subst h.
    by rewrite fresh_cluster in Hme.
  - intros producer w' (me1 & Hme1 & ->)%add_inv. cbv zeta.
    apply same_cluster_intro; simpl.
    + by rewrite lookup_insert_ne.
    + intros me2 p Hme2 Hp. rewrite lookup_insert_ne; [done|].
      intros <-. destruct (Hlive _ _ Hme2) as [_ Hl].
      destruct (Hl _ Hp) as [? Hsome]. by rewrite fresh_pool in Hsome.
  - intros priority r
      (me1 & Hme1 & [[_ ->]|(i & p & po & tr & _ & Hp & _ & ->)])%acquire_inv.
    { by apply same_cluster_intro. }
    apply same_cluster_intro; simpl.
    + by rewrite lookup_insert_ne.
    + intros me2 q Hme2 Hq. rewrite lookup_insert_ne; [done|].
      intros <-. apply Hne. eapply Hpriv; [done..| |done].
      by eapply list_elem_of_lookup_2.
Qed.

(** C9.  On a cluster with N >= 1 Members, [acquire] returns, and the
    index it uses is a position of the array, at which a pool is found.
    When the loop ends without an idle Member, [poolWaiting] holds the N
    waiting counts and no hole, and the fallback computes a position from
    it.  The guard [typeof useIndex == -1] is false for every value of
    [useIndex], so the branch that resets it to [this.index] never runs. *)
Theorem acquire_index_in_bounds h priority (w : world) me :
  reachable w → clusters w !! h = Some me → cluster me ≠ [] →
  let n := length (cluster me) in
  (∃ r i p,
     acquire h priority w = Return r ∧ a_selected r = Some i ∧
     0 ≤ i < Z.of_nat n ∧ at_index (cluster me) i = Some p) ∧
  (∀ poolWaiting tr,
     scan w (cluster me) n (index me) [] [] = Some (None, poolWaiting, tr) →
     ∃ ws, waitings w (cluster me) = Some ws ∧
           poolWaiting = Some <$> ws ∧ length poolWaiting = n ∧
           0 ≤ Underscore.indexOf poolWaiting (Underscore.min poolWaiting)
             < Z.of_nat n) ∧
  (∀ useIndex, loose_eq_string_number (typeof useIndex) (-1) = false).
Proof.
  intros Hreach Hme Hne n.
  destruct (reachable_ready w h me) as ((ws & Hws) & Hnd & Hcur); [done..|].
  pose proof (counters_length _ _ _ _ Hws) as Hlen.
  split; [|split].
  - destruct (acquire_spec h priority w me ws Hme Hws Hne Hcur)
      as (i & p & po & tr & Hacq & Hi & Hp & _).
    eexists _, i, p. split; [exact Hacq|]. split; [done|]. split; [done|].
    unfold at_index. by rewrite decide_True by lia.
  - intros pw tr Hscan.
    destruct (select_spec w _ _ _ Hws Hne Hcur)
      as (useIndex & pw' & tr' & i & Hscan' & Hi & Hfull & Hrange & _).
    unfold n in Hscan. rewrite Hscan in Hscan'. simplify_eq.
    exists ws. split; [done|]. rewrite (Hfull eq_refl) in *.
    split; [done|]. split; [by rewrite length_fmap|done].
  - apply typeof_never_minus_one.
Qed.

(** C10.  [add] builds the Member's pool from an object of its own: a
    new object holding every field of the factory object, with the
    producer as its [create] field.  Every object that existed before the
    call, the factory object among them, is left as it was, and so are
    the pools added before and all other clusters. *)
Theorem add_copies_factory h producer (w : world) me :
  clusters w !! h = Some me →
  let shared : obj := default ∅ (f ← factory me; objs w !! f) in
  let pool_factory : obj := <["create" := producer]> shared in
  ∃ w' l p,
    add h producer w = Return w' ∧
    objs w !! l = None ∧ pools w !! p = None ∧
    pool_factory !! "create" = Some producer ∧
    (∀ k, k ≠ "create" → pool_factory !! k = shared !! k) ∧
    objs w' !! l = Some (Pool pool_factory).1 ∧
    pools w' !! p = Some (PoolObj l (Pool pool_factory).2) ∧
    clusters w' !! h = Some (ClusterObj (cluster me ++ [p]) (index me) (factory me)) ∧
    (∀ l' o, objs w !! l' = Some o → objs w' !! l' = Some o) ∧
    (∀ p' po, pools w !! p' = Some po → pools w' !! p' = Some po) ∧
    (∀ h', h' ≠ h → clusters w' !! h' = clusters w !! h').
Proof.
  intros Hme shared pool_factory.
  destruct (add h producer w) as [w'|w'] eqn:Hadd.
  - apply add_inv in Hadd as (me1 & Hme1 & ->). cbv zeta.
    assert (me1 = me) as -> by congruence.
    rewrite copy_fields_id. fold shared. fold pool_factory.
    eexists _, (fresh (dom (objs w))), (fresh (dom (pools w))).
    split; [done|]. split; [apply fresh_obj|]. split; [apply fresh_pool|].
    split; [apply lookup_insert_eq|].
    split; [by intros k Hk; apply lookup_insert_ne|]. simpl.
    rewrite !lookup_insert_eq. split; [done|]. split; [done|]. split; [done|].
    split; [|split].
    + intros l' o Hl'. rewrite lookup_insert_ne; [done|].
      intros <-. by rewrite fresh_obj in Hl'.
    + intros p' po Hp'. rewrite lookup_insert_ne; [done|].
      intros <-. by rewrite fresh_pool in Hp'.
    + intros h' Hh'. by rewrite lookup_insert_ne.
  - unfold add in Hadd. rewrite Hme in Hadd. cbv zeta in Hadd.
    by destruct (Pool _).
Qed.

End Claims.

(** * The claims on the example clusters *)

Section Witnesses.
Import JS ClusterPool Example.
#[local] Existing Instance CountingPool.module.

Lemma acquire_circular_scan_witness :
  reachable w_three ∧
  clusters w_three !! 1%positive
  = Some (ClusterObj [1; 2; 3]%positive 0 (Some 1%positive)) ∧
  (∃ w3, acquires 1%positive None 3 w_three
         = Return (w3, [Some 0; Some 1; Some 2])) ∧
  ∃ w', acquires 1%positive None 4 w_three
        = Return (w', [Some 0; Some 1; Some 2; Some 0]).
Proof.
  split; [apply w_three_reachable|]. split; [reflexivity|].
  destruct (acquire_circular_scan 1%positive None w_three
              (ClusterObj [1; 2; 3]%positive 0 (Some 1%positive))
              w_three_reachable eq_refl)
    as (ws & r & Hws & _ & _ & _ & Hfour); [done|].
  destruct Hfour as [Hthree Hfour].
  - assert (Some ws = Some [0; 0; 0]%nat) as Hw by (rewrite <- Hws; reflexivity).
    congruence.
  - reflexivity.
  - split; [exact Hthree|]. apply Hfour.
    intros p po Hp Hpo.
    assert (Some p = Some 1%positive) as [= ->] by (rewrite <- Hp; reflexivity).
    assert (Some po = Some (PoolObj 2%positive (CountingPool.State 4 0 0 0)))
      as Hq by (rewrite <- Hpo; reflexivity).
    injection Hq as ->. reflexivity.
Defined.

(** C1 as first stated fails: three Members without a waiting request
    and the Cursor at 0, but the first Member has no resource left, so
    the request it is given waits there and the fourth call goes to the
    second Member. *)
Lemma acquire_circular_scan_counterexample :
  reachable w_busy0 ∧
  clusters w_busy0 !! 1%positive
  = Some (ClusterObj [1; 2; 3]%positive 0 (Some 1%positive)) ∧
  waitings w_busy0 [1; 2; 3]%positive = Some [0; 0; 0]%nat ∧
  selections (acquires 1%positive None 4 w_busy0)
  = Some [Some 0; Some 1; Some 2; Some 1] ∧
  ¬ ∃ w', acquires 1%positive None 4 w_busy0
          = Return (w', [Some 0; Some 1; Some 2; Some 0]).
Proof.
  assert (selections (acquires 1%positive None 4 w_busy0)
          = Some [Some 0; Some 1; Some 2; Some 1]) as Hsel
    by (vm_compute; reflexivity).
  split.
  { destruct w_three_reachable as (w0 & Hinit & Hsteps).
    exists w0. split; [done|]. etrans; [done|apply with_waiting_step]. }
  split; [reflexivity|]. split; [reflexivity|]. split; [exact Hsel|].
  intros [w' Hrun]. rewrite Hrun in Hsel. clear Hrun. simpl in Hsel. congruence.
Qed.

Lemma acquire_least_loaded_witness :
  reachable w_loaded ∧
  waitings w_loaded [1; 2; 3]%positive = Some [5; 2; 2]%nat ∧
  ∃ r, acquire 1%positive None w_loaded = Return r ∧ a_selected r = Some 1.
Proof.
  split; [apply w_loaded_reachable|]. split; [reflexivity|].
  destruct (acquire_least_loaded 1%positive None w_loaded
              (ClusterObj [1; 2; 3]%positive 0 (Some 1%positive))
              w_loaded_reachable eq_refl)
    as (ws & Hws & Hsel); [done|].
  assert (Some ws = Some [5; 2; 2]%nat) as Hw by (rewrite <- Hws; reflexivity).
  injection Hw as ->.
  destruct Hsel as (r & i & m & Hacq & Hi & _ & _ & _ & _ & _ & Hone).
  { by intros [|[|[|j]]]. }
  exists r. split; [done|]. by rewrite Hi, Hone.
Defined.

Lemma acquire_advances_cursor_witness :
  ∃ ws r i p me',
    waitings w_three [1; 2; 3]%positive = Some ws ∧
    acquire 1%positive None w_three = Return r ∧
    a_selected r = Some i ∧
    0 ≤ i < 3 ∧
    selection_rule ws 0 i (reads (a_trace r)) ∧
    [1; 2; 3]%positive !! Z.to_nat i = Some p ∧
    last (a_trace r) = Some (EvPoolAcquire p None) ∧
    clusters (a_world r) !! 1%positive = Some me' ∧
    cluster me' = [1; 2; 3]%positive ∧
    index me' = (i + 1) `mod` 3.
Proof.
  apply (acquire_advances_cursor 1%positive None w_three
           (ClusterObj [1; 2; 3]%positive 0 (Some 1%positive))
           w_three_reachable eq_refl).
  done.
Defined.

Lemma acquire_empty_cluster_witness :
  acquire 1%positive (Some 0) w_empty
  = Return (Acquired w_empty
              [EvCallbackError "No servers added to cluster yet"] None).
Proof.
  apply (acquire_empty_cluster 1%positive (Some 0) w_empty
           (ClusterObj [] 0 (Some 1%positive)));
    reflexivity.
Defined.

Lemma acquire_drops_priority_witness :
  ∃ r p,
    acquire 1%positive (Some 7) w_three = Return r ∧
    last (a_trace r) = Some (EvPoolAcquire p None) ∧
    ∀ q x, EvPoolAcquire q x ∈ a_trace r → x = None.
Proof.
  apply (acquire_drops_priority 1%positive 7 w_three
           (ClusterObj [1; 2; 3]%positive 0 (Some 1%positive))
           w_three_reachable eq_refl).
  done.
Defined.

Lemma cursor_invariant_witness :
  rtc step (create (Some 1%positive) w_fresh).2 w_three ∧
  ∃ me, clusters w_three !! 1%positive = Some me ∧
        (cluster me ≠ [] → 0 ≤ index me < Z.of_nat (length (cluster me))).
Proof.
  split; [apply w_three_steps|].
  apply (cursor_invariant (Some 1%positive) w_fresh w_three w_three_steps).
Defined.

Lemma totals_are_sums_witness :
  ∃ launched available waiting,
    Forall2 (λ p n, ∃ po, pools w_loaded !! p = Some po ∧
                          n = CountingPool.count (p_state po))
            [1; 2; 3]%positive launched ∧
    Forall2 (λ p n, ∃ po, pools w_loaded !! p = Some po ∧
                          n = CountingPool.available (p_state po))
            [1; 2; 3]%positive available ∧
    Forall2 (λ p n, ∃ po, pools w_loaded !! p = Some po ∧
                          n = CountingPool.waiting (p_state po))
            [1; 2; 3]%positive waiting ∧
    getClusterSize 1%positive w_loaded = Some 3%nat ∧
    getPoolSize 1%positive w_loaded = Some (sum_list launched) ∧
    availableObjectsCount 1%positive w_loaded = Some (sum_list available) ∧
    waitingClientsCount 1%positive w_loaded = Some (sum_list waiting).
Proof.
  apply (totals_are_sums 1%positive w_loaded
           (ClusterObj [1; 2; 3]%positive 0 (Some 1%positive))
           w_loaded_reachable eq_refl).
Defined.

Lemma clusters_isolated_witness :
  reachable w_pair ∧
  (∀ producer w', add 1%positive producer w_pair = Return w' →
     same_cluster 2%positive w_pair w') ∧
  (∀ priority r, acquire 1%positive priority w_pair = Return r →
     same_cluster 2%positive w_pair (a_world r)).
Proof.
  split; [apply w_pair_reachable|].
  apply (clusters_isolated 1%positive 2%positive w_pair w_pair_reachable).
  done.
Defined.

Lemma acquire_index_in_bounds_witness :
  ∃ r i p,
    acquire 1%positive None w_loaded = Return r ∧ a_selected r = Some i ∧
    0 ≤ i < 3 ∧ at_index [1; 2; 3]%positive i = Some p.
Proof.
  apply (acquire_index_in_bounds 1%positive None w_loaded
           (ClusterObj [1; 2; 3]%positive 0 (Some 1%positive))
           w_loaded_reachable eq_refl).
  done.
Defined.

Lemma add_copies_factory_witness :
  ∃ w' l p,
    add 1%positive (VFun 9) w_three = Return w' ∧
    objs w_three !! l = None ∧ pools w_three !! p = None ∧
    objs w' !! 1%positive = Some config.
Proof.
  destruct (add_copies_factory 1%positive (VFun 9) w_three
              (ClusterObj [1; 2; 3]%positive 0 (Some 1%positive)) eq_refl)
    as (w' & l & p & Hadd & Hl & Hp & _ & _ & _ & _ & _ & Hobjs & _).
  exists w', l, p. split; [done|]. split; [done|]. split; [done|].
  by apply Hobjs.
Defined.

End Witnesses.

(** * Further properties of the module *)

(** ** Helpers *)

Section MoreFacts.
Import JS ClusterPool.
Context `{PM : PoolModule}.

(** Two steps of a walk that is shorter than the array land on different
    positions. *)
Lemma visit_inj n cur j j' :
  (j < n)%nat → (j' < n)%nat → visit n cur j = visit n cur j' → j = j'.
Proof.
  unfold visit. intros Hj Hj' Heq.
  pose proof (Z.div_mod (cur + Z.of_nat j) (Z.of_nat n) ltac:(lia)) as H1.
  pose proof (Z.div_mod (cur + Z.of_nat j') (Z.of_nat n) ltac:(lia)) as H2.
  rewrite Heq in H1.
  assert ((cur + Z.of_nat j) `div` Z.of_nat n
          = (cur + Z.of_nat j') `div` Z.of_nat n) by nia.
  lia.
Qed.

Lemma visit_seq_NoDup n cur k :
  (k ≤ n)%nat → NoDup (visit n cur <$> seq 0 k).
Proof.
  intros Hk. apply NoDup_fmap_2_strong; [|apply NoDup_seq].
  intros j j' Hj%elem_of_seq Hj'%elem_of_seq. apply visit_inj; lia.
Qed.

(** Every call the loop makes is [waitingClientsCount] on the pool found
    at the index it records. *)
Lemma scan_trace (w : world) c : ∀ todo t pw tr res pw' tr',
  scan w c todo t pw tr = Some (res, pw', tr') →
  ∃ tr2, tr' = tr ++ tr2 ∧
         Forall (λ e, ∃ j q, e = EvWaitingClientsCount j q ∧
                             at_index c j = Some q) tr2.
Proof.
  induction todo as [|todo IH]; intros t pw tr res pw' tr' Hs; simpl in Hs.
  - simplify_eq. exists []. by rewrite (right_id_L [] (++)).
  - destruct (member w c t) as [[p po]|] eqn:Hm; [|done].
    assert (at_index c t = Some p) as Hp.
    { unfold member in Hm. destruct (at_index c t) as [q|]; [|done].
      simpl in Hm. destruct (pools w !! q); by simplify_eq/=. }
    case_decide.
    + simplify_eq. eexists. split; [done|]. constructor; [|done]. eauto.
    + apply IH in Hs as (tr2 & -> & Hall).
      exists (EvWaitingClientsCount t p :: tr2).
      rewrite <- (assoc_L (++)). split; [done|]. constructor; [|done]. eauto.
Qed.

(** [acquire_inv] with the shape of the calls made. *)
Lemma acquire_shape h priority (w : world) r me :
  acquire h priority w = Return r →
  clusters w !! h = Some me → cluster me ≠ [] →
  ∃ i p po tr,
    0 ≤ i < Z.of_nat (length (cluster me)) ∧
    cluster me !! Z.to_nat i = Some p ∧ pools w !! p = Some po ∧
    Forall (λ e, ∃ j q, e = EvWaitingClientsCount j q ∧
                        at_index (cluster me) j = Some q) tr ∧
    r = Acquired
          (set_pool_state p po (pool_acquire None (p_state po))
             (set_index h me ((i + 1) `mod` Z.of_nat (length (cluster me))) w))
          (tr ++ [EvPoolAcquire p None]) (Some i).
Proof.
  unfold acquire. intros H Hme Hne. rewrite Hme in H.
  rewrite decide_False in H by (destruct (cluster me); simpl in *; [done|lia]).
  destruct (scan _ _ _ _ _ _) as [[[useIndex pw] tr]|] eqn:Hscan; [|done].
  apply scan_trace in Hscan as (tr2 & Htr & Hall). simpl in Htr. subst tr.
  cbv zeta in H. rewrite typeof_never_minus_one, set_index_twice in H.
  destruct (member _ _ _) as [[p po]|] eqn:Hm; [|done].
  apply member_inv in Hm as (Hi & Hp & Hpo).
  rewrite wrap_mod in H by done. simplify_eq. eauto 10.
Qed.

Lemma sum_list_insert (ns : list nat) i a b :
  ns !! i = Some a →
  (sum_list (<[i := b]> ns) + a = sum_list ns + b)%nat.
Proof.
  revert i. induction ns as [|n ns IH]; intros [|i] Hi; simplify_eq/=; [lia|].
  specialize (IH _ Hi). lia.
Qed.

Lemma sum_list_zero (ns : list nat) :
  sum_list ns = 0%nat → ∀ j n, ns !! j = Some n → n = 0%nat.
Proof.
  induction ns as [|x ns IH]; intros Hs [|j] n Hj; simplify_eq/=; [lia|].
  apply (IH ltac:(lia) j n Hj).
Qed.

End MoreFacts.

(** ** Selection *)

Section MoreSelection.
Import JS ClusterPool.
Context `{PM : PoolModule}.

(** X1.  The Member [acquire] selects never has more requests waiting
    than any other Member of the cluster; in particular it is an idle
    one as soon as one Member is idle. *)
Theorem acquire_selects_least_waiting h priority (w : world) me :
  reachable w → clusters w !! h = Some me → cluster me ≠ [] →
  ∃ ws r i m,
    waitings w (cluster me) = Some ws ∧
    acquire h priority w = Return r ∧
    a_selected r = Some i ∧
    ws !! Z.to_nat i = Some m ∧
    (∀ j x, ws !! j = Some x → (m ≤ x)%nat) ∧
    ((∃ j, ws !! j = Some 0%nat) → m = 0%nat).
Proof.
  intros Hreach Hme Hne.
  destruct (reachable_ready w h me) as ((ws & Hws) & Hnd & Hcur); [done..|].
  destruct (acquire_spec h priority w me ws Hme Hws Hne Hcur)
    as (i & p & po & tr & Hacq & Hi & Hp & Hpo & Hrule).
  assert (∃ m, ws !! Z.to_nat i = Some m ∧
               ∀ j x, ws !! j = Some x → (m ≤ x)%nat) as (m & Hm & Hmin).
  { destruct Hrule as [(k & _ & _ & Hz & _)|(_ & (m & Hm & Hmin & _) & _)].
    - exists 0%nat. split; [done|]. intros; lia.
    - eauto. }
  eexists ws, _, i, m. split; [done|]. split; [exact Hacq|].
  split; [done|]. split; [done|]. split; [done|].
  intros [j Hj]. specialize (Hmin _ _ Hj). lia.
Qed.

(** X2.  One call of [acquire] asks at most N Members for their waiting
    count, never the same Member twice, beginning with the Member under
    the Cursor, and every index asked is a position of the array. *)
Theorem acquire_reads_each_member_once h priority (w : world) me :
  reachable w → clusters w !! h = Some me → cluster me ≠ [] →
  ∃ r rest,
    acquire h priority w = Return r ∧
    reads (a_trace r) = index me :: rest ∧
    NoDup (reads (a_trace r)) ∧
    (length (reads (a_trace r)) ≤ length (cluster me))%nat ∧
    Forall (λ i, 0 ≤ i < Z.of_nat (length (cluster me))) (reads (a_trace r)).
Proof.
  intros Hreach Hme Hne.
  destruct (reachable_ready w h me) as ((ws & Hws) & Hnd & Hcur); [done..|].
  pose proof (counters_length _ _ _ _ Hws) as Hlen.
  destruct (acquire_spec h priority w me ws Hme Hws Hne Hcur)
    as (i & p & po & tr & Hacq & Hi & Hp & Hpo & Hrule).
  assert (∃ k, (k < length (cluster me))%nat ∧
               reads tr = visit (length (cluster me)) (index me) <$> seq 0 (S k))
    as (k & Hk & Hr).
  { rewrite <- Hlen.
    destruct Hrule as [(k & Hk & _ & _ & _ & Hr)|(_ & _ & Hr)]; [by eauto|].
    destruct (length ws) as [|n] eqn:Hn; [|exists n; split; [lia|done]].
    destruct (cluster me); simpl in *; [done|lia]. }
  eexists _, _. split; [exact Hacq|]. cbn [a_trace].
  rewrite reads_pool_acquire, Hr. split; [|split; [|split]].
  - cbn [seq fmap list_fmap]. by rewrite visit_0.
  - apply visit_seq_NoDup. lia.
  - rewrite length_fmap, length_seq. lia.
  - apply Forall_fmap, Forall_forall. intros j _. simpl.
    apply visit_range. lia.
Qed.

(** X3.  While the cluster reports no waiting request at all, [acquire]
    is plain round robin: it selects the Member under the Cursor after
    reading that Member's count only, and moves the Cursor one step. *)
Theorem acquire_idle_cluster_round_robin h priority (w : world) me :
  reachable w → clusters w !! h = Some me → cluster me ≠ [] →
  waitingClientsCount h w = Some 0%nat →
  ∃ r me',
    acquire h priority w = Return r ∧
    a_selected r = Some (index me) ∧
    reads (a_trace r) = [index me] ∧
    clusters (a_world r) !! h = Some me' ∧
    index me' = (index me + 1) `mod` Z.of_nat (length (cluster me)).
Proof.
  intros Hreach Hme Hne Hzero.
  destruct (reachable_ready w h me) as ((ws & Hws) & Hnd & Hcur); [done..|].
  pose proof (counters_length _ _ _ _ Hws) as Hlen.
  unfold waitingClientsCount in Hzero. rewrite Hme in Hzero. simpl in Hzero.
  rewrite (sum_pools_counters _ _ _ _ Hws) in Hzero.
  assert (ws !! Z.to_nat (index me) = Some 0%nat) as Hz.
  { destruct (lookup_lt_is_Some_2 ws (Z.to_nat (index me))) as [n Hn]; [lia|].
    rewrite Hn. f_equal. eapply sum_list_zero; [|done]. congruence. }
  destruct (acquire_spec h priority w me ws Hme Hws Hne Hcur)
    as (i & p & po & tr & Hacq & Hi & Hp & Hpo & Hrule).
  destruct (selection_first ws (index me) i (reads tr) 0 Hrule) as [-> Hr].
  { lia. }
  { by rewrite Hlen, visit_0. }
  { intros; lia. }
  rewrite Hlen, visit_0 in * by done.
  eexists _, _. split; [exact Hacq|]. cbn [a_trace a_selected a_world].
  rewrite reads_pool_acquire. split; [done|]. split.
  { rewrite Hr. cbn [seq fmap list_fmap]. by rewrite visit_0. }
  simpl. rewrite lookup_insert_eq. done.
Qed.

(** X4.  A cluster with a single Member sends every request to it,
    however many requests wait there, and its Cursor stays at 0. *)
Theorem acquire_single_member h priority (w : world) me p :
  reachable w → clusters w !! h = Some me → cluster me = [p] →
  ∃ r po me',
    acquire h priority w = Return r ∧
    a_selected r = Some 0 ∧
    pools w !! p = Some po ∧
    a_trace r = [EvWaitingClientsCount 0 p; EvPoolAcquire p None] ∧
    clusters (a_world r) !! h = Some me' ∧ index me' = 0.
Proof.
  intros Hreach Hme Hc.
  assert (cluster me ≠ []) as Hne by by rewrite Hc.
  destruct (reachable_ready w h me) as ((ws & Hws) & Hnd & Hcur); [done..|].
  pose proof (counters_length _ _ _ _ Hws) as Hlen.
  destruct (acquire_spec h priority w me ws Hme Hws Hne Hcur)
    as (i & q & po & tr & Hacq & Hi & Hq & Hpo & Hrule).
  destruct (acquire_shape h priority w _ me Hacq Hme Hne)
    as (i' & q' & po' & tr' & _ & _ & _ & Hall & Heq).
  apply (f_equal a_trace) in Heq. simpl in Heq.
  apply app_inj_tail in Heq as [<- _].
  rewrite Hc in *. simpl in Hi, Hcur, Hlen.
  assert (i = 0) as -> by lia. assert (index me = 0) as Hidx by lia.
  simpl in Hq. simplify_eq.
  assert (reads tr = [0]) as Hr.
  { unfold selection_rule, first_idle in Hrule. rewrite Hlen, Hidx in Hrule.
    destruct Hrule as [(k & Hk & _ & _ & _ & ->)|(_ & _ & ->)]; [|done].
    by assert (k = 0)%nat as -> by lia. }
  eexists _, po, _. split; [exact Hacq|]. split; [done|]. split; [done|].
  split; [|by simpl; rewrite lookup_insert_eq].
  simpl. f_equal.
  destruct tr as [|e [|e' tr]]; [done| |].
  - apply Forall_cons in Hall as [(j & q1 & -> & Hjq) _].
    simpl in Hr. injection Hr as ->.
    unfold at_index in Hjq. simpl in Hjq. by simplify_eq.
  - apply Forall_cons in Hall as [(j & q1 & -> & _) Hall].
    apply Forall_cons in Hall as [(j' & q2 & -> & _) _].
    done.
Qed.

End MoreSelection.

(** ** Rounds, effects and failure of [acquire] *)

Section MoreAcquire.
Import JS ClusterPool.
Context `{PM : PoolModule}.

Lemma visit_succ n cur k :
  (0 < n)%nat → (visit n cur k + 1) `mod` Z.of_nat n = visit n cur (S k).
Proof.
  intros. unfold visit. rewrite Zplus_mod_idemp_l. f_equal. lia.
Qed.

(** [m] calls in a row from the [k]-th step of a walk along which every
    Member still ahead is idle. *)
Lemma acquires_round h priority cur : ∀ m k (w : world) me ws,
  clusters w !! h = Some me → NoDup (cluster me) →
  waitings w (cluster me) = Some ws →
  index me = visit (length (cluster me)) cur k →
  (k + m ≤ length (cluster me))%nat →
  (∀ j, (k ≤ j < length (cluster me))%nat →
        ws !! Z.to_nat (visit (length (cluster me)) cur j) = Some 0%nat) →
  ∃ w' me',
    acquires h priority m w
    = Return (w', (Some ∘ visit (length (cluster me)) cur) <$> seq k m) ∧
    clusters w' !! h = Some me' ∧ cluster me' = cluster me ∧
    factory me' = factory me ∧
    index me' = visit (length (cluster me)) cur (k + m).
Proof.
  induction m as [|m IH]; intros k w me ws Hme Hnd Hws Hidx Hkm Hidle.
  - exists w, me. rewrite Nat.add_0_r. done.
  - pose proof (counters_length _ _ _ _ Hws) as Hlen.
    assert (0 ≤ index me < Z.of_nat (length (cluster me))) as Hcur.
    { rewrite Hidx. apply visit_range. lia. }
    destruct (acquire_at_cursor h priority w me ws Hme Hws Hnd Hcur)
      as (p & po & r & Hp & Hpo & Hacq & Hsel & Hcl & Hws').
    { rewrite Hidx. apply Hidle. lia. }
    destruct (IH (S k) (a_world r) _ _ Hcl Hnd Hws')
      as (w' & me' & Hrun & Hme' & Hc' & Hf' & Hi'); simpl.
    + rewrite Hidx. apply visit_succ. lia.
    + lia.
    + intros j Hj. rewrite list_lookup_insert_ne; [apply Hidle; lia|].
      rewrite Hidx. intros Heq.
      pose proof (visit_range (length (cluster me)) cur k ltac:(lia)).
      pose proof (visit_range (length (cluster me)) cur j ltac:(lia)).
      assert (k = j) by (apply (visit_inj (length (cluster me)) cur); lia).
      lia.
    + exists w', me'. cbn [acquires]. rewrite Hacq. simpl in Hrun. rewrite Hrun.
      split; [|split; [done|]].
      * cbn [seq fmap list_fmap]. simpl. by rewrite Hsel, Hidx.
      * split; [done|]. split; [done|].
        simpl in Hi'. rewrite Hi'. f_equal. lia.
Qed.

(** X5.  On a cluster whose N Members are all idle, N calls of [acquire]
    in a row give each Member exactly one request, in the order of the
    array from the Cursor on and around, whatever a pool does with the
    request it receives; the Cursor is then back where it started. *)
Theorem acquires_full_round h priority (w : world) me :
  reachable w → clusters w !! h = Some me → cluster me ≠ [] →
  waitings w (cluster me) = Some (replicate (length (cluster me)) 0%nat) →
  let n := length (cluster me) in
  ∃ w' me',
    acquires h priority n w
    = Return (w', (λ k : nat, Some ((index me + Z.of_nat k) `mod` Z.of_nat n))
                    <$> seq 0 n) ∧
    NoDup ((λ k : nat, (index me + Z.of_nat k) `mod` Z.of_nat n) <$> seq 0 n) ∧
    clusters w' !! h = Some me' ∧ cluster me' = cluster me ∧
    index me' = index me.
Proof.
  intros Hreach Hme Hne Hws n.
  destruct (reachable_ready w h me) as (_ & Hnd & Hcur); [done..|].
  destruct (acquires_round h priority (index me) n 0 w me _ Hme Hnd Hws)
    as (w' & me' & Hrun & Hme' & Hc' & _ & Hi').
  - by rewrite visit_0.
  - unfold n. lia.
  - intros j Hj. apply lookup_replicate_2.
    pose proof (visit_range (length (cluster me)) (index me) j ltac:(lia)). lia.
  - exists w', me'. split; [exact Hrun|]. split.
    { apply (visit_seq_NoDup n (index me) n). lia. }
    split; [done|]. split; [done|].
    rewrite Hi'. unfold visit, n. simpl.
    replace (index me + Z.of_nat (length (cluster me)))
      with (index me + 1 * Z.of_nat (length (cluster me))) by lia.
    rewrite Z.mod_add by lia. by apply Z.mod_small.
Qed.

(** X6.  A completed [acquire] on a cluster with Members calls
    [waitingClientsCount] on Members of that cluster only, then [acquire]
    on the selected pool, once, and never the error callback.  In the
    heap it changes the state of the selected pool and the Cursor: no
    object is touched, no pool is added or removed, every other pool is
    as before, and the cluster keeps its array and its factory. *)
Theorem acquire_frame h priority (w : world) r me :
  acquire h priority w = Return r →
  clusters w !! h = Some me → cluster me ≠ [] →
  ∃ i p po tr me',
    a_selected r = Some i ∧
    cluster me !! Z.to_nat i = Some p ∧ pools w !! p = Some po ∧
    a_trace r = tr ++ [EvPoolAcquire p None] ∧
    Forall (λ e, ∃ j q, e = EvWaitingClientsCount j q ∧
                        at_index (cluster me) j = Some q) tr ∧
    objs (a_world r) = objs w ∧
    dom (pools (a_world r)) = dom (pools w) ∧
    pools (a_world r) !! p
    = Some (PoolObj (p_factory po) (pool_acquire None (p_state po))) ∧
    (∀ q, q ≠ p → pools (a_world r) !! q = pools w !! q) ∧
    clusters (a_world r) !! h = Some me' ∧
    cluster me' = cluster me ∧ factory me' = factory me.
Proof.
  intros Hacq Hme Hne.
  destruct (acquire_shape h priority w r me Hacq Hme Hne)
    as (i & p & po & tr & Hi & Hp & Hpo & Hall & ->).
  eexists i, p, po, tr, _. simpl.
  split; [done|]. split; [done|]. split; [done|]. split; [done|].
  split; [done|]. split; [done|]. split.
  { by apply dom_insert_lookup_L. }
  split; [by rewrite lookup_insert_eq|].
  split; [by intros q Hq; rewrite lookup_insert_ne|].
  by rewrite lookup_insert_eq.
Qed.


End MoreAcquire.

(** ** Statistics along [add] and [acquire] *)

Section MoreStatistics.
Import JS ClusterPool.
Context `{PM : PoolModule}.

Lemma add_returns h producer (w : world) me :
  clusters w !! h = Some me → ∃ w', add h producer w = Return w'.
Proof.
  intros Hme. unfold add. rewrite Hme. cbv zeta.
  destruct (Pool _). by eexists.
Qed.

(** The counters of an array with one more pool at its end. *)
Lemma counters_snoc f (w w' : world) c ns p po :
  counters f w c = Some ns →
  (∀ q, q ∈ c → pools w' !! q = pools w !! q) →
  pools w' !! p = Some po →
  counters f w' (c ++ [p]) = Some (ns ++ [f (p_state po)]).
Proof.
  intros Hns Hsame Hp. rewrite <- (counters_ext f w w' c Hsame) in Hns.
  apply mapM_Some. apply mapM_Some in Hns.
  apply Forall2_app; [done|]. constructor; [|done]. simpl. by rewrite Hp.
Qed.

Lemma sum_list_snoc (ns : list nat) x :
  sum_list (ns ++ [x]) = (sum_list ns + x)%nat.
Proof. induction ns as [|n ns IH]; simpl; lia. Qed.

(** X8.  [add] makes the cluster one Member larger and raises each of the
    three totals by the count the new pool starts with; nothing else
    enters the totals. *)
Theorem add_extends_statistics h producer (w : world) me :
  reachable w → clusters w !! h = Some me →
  ∃ w' st size launched available waiting,
    add h producer w = Return w' ∧
    st = (Pool (<["create" := producer]>
                  (default ∅ (f ← factory me; objs w !! f)))).2 ∧
    statistics h w = (Some size, Some launched, Some available, Some waiting) ∧
    statistics h w'
    = (Some (S size),
       Some (launched + pool_getPoolSize st)%nat,
       Some (available + pool_availableObjectsCount st)%nat,
       Some (waiting + pool_waitingClientsCount st)%nat).
Proof.
  intros [[Hlive Hpriv] _]%reachable_ok Hme.
  destruct (add_returns h producer w me Hme) as [w' Hadd].
  pose proof Hadd as (me1 & Hme1 & Hw')%add_inv. cbv zeta in Hw'.
  assert (me1 = me) as -> by congruence.
  rewrite copy_fields_id in Hw'.
  set (st := (Pool _).2) in Hw'.
  destruct (counters_is_Some pool_getPoolSize w h me) as [l Hl]; [done..|].
  destruct (counters_is_Some pool_availableObjectsCount w h me) as [a Ha]; [done..|].
  destruct (counters_is_Some pool_waitingClientsCount w h me) as [q Hq]; [done..|].
  exists w', st, (length (cluster me)), (sum_list l), (sum_list a), (sum_list q).
  split; [done|]. split; [done|]. split.
  { unfold statistics, getClusterSize, getPoolSize, availableObjectsCount,
      waitingClientsCount. rewrite Hme. simpl.
    by rewrite (sum_pools_counters _ _ _ _ Hl), (sum_pools_counters _ _ _ _ Ha),
      (sum_pools_counters _ _ _ _ Hq). }
  assert (∀ p, p ∈ cluster me → pools w' !! p = pools w !! p) as Hsame.
  { intros p Hp. rewrite Hw'. simpl. rewrite lookup_insert_ne; [done|].
    intros <-. destruct (Hlive _ _ Hme) as [_ Hlv].
    destruct (Hlv _ Hp) as [? Hsome]. by rewrite fresh_pool in Hsome. }
  assert (pools w' !! fresh (dom (pools w))
          = Some (PoolObj (fresh (dom (objs w))) st)) as Hnew.
  { rewrite Hw'. simpl. by rewrite lookup_insert_eq. }
  assert (clusters w' !! h
          = Some (ClusterObj (cluster me ++ [fresh (dom (pools w))])
                             (index me) (factory me))) as Hme'.
  { rewrite Hw'. simpl. by rewrite lookup_insert_eq. }
  unfold statistics, getClusterSize, getPoolSize, availableObjectsCount,
    waitingClientsCount. rewrite Hme'. simpl.
  rewrite (sum_pools_counters _ _ _ _ (counters_snoc _ _ _ _ _ _ _ Hl Hsame Hnew)),
    (sum_pools_counters _ _ _ _ (counters_snoc _ _ _ _ _ _ _ Ha Hsame Hnew)),
    (sum_pools_counters _ _ _ _ (counters_snoc _ _ _ _ _ _ _ Hq Hsame Hnew)).
  rewrite !sum_list_snoc, length_app. simpl.
  repeat f_equal. lia.
Qed.

(** X9.  [acquire] leaves the size of the cluster as it is and moves each
    of the three totals by what the selected pool's own count moves:
    the new total plus the pool's old count is the old total plus the
    pool's new count. *)
Theorem acquire_moves_totals h priority (w : world) me :
  reachable w → clusters w !! h = Some me → cluster me ≠ [] →
  ∃ r i p po size l a q l' a' q',
    acquire h priority w = Return r ∧ a_selected r = Some i ∧
    cluster me !! Z.to_nat i = Some p ∧ pools w !! p = Some po ∧
    statistics h w = (Some size, Some l, Some a, Some q) ∧
    statistics h (a_world r) = (Some size, Some l', Some a', Some q') ∧
    let st := p_state po in
    let st' := pool_acquire None st in
    (l' + pool_getPoolSize st = l + pool_getPoolSize st')%nat ∧
    (a' + pool_availableObjectsCount st
     = a + pool_availableObjectsCount st')%nat ∧
    (q' + pool_waitingClientsCount st = q + pool_waitingClientsCount st')%nat.
Proof.
  intros Hreach Hme Hne.
  destruct (reachable_ready w h me) as ((ws & Hws) & Hnd & Hcur); [done..|].
  apply reachable_ok in Hreach as [Hheap _].
  destruct (acquire_spec h priority w me ws Hme Hws Hne Hcur)
    as (i & p & po & tr & Hacq & Hi & Hp & Hpo & _).
  destruct (counters_is_Some pool_getPoolSize w h me) as [l Hl]; [done..|].
  destruct (counters_is_Some pool_availableObjectsCount w h me) as [a Ha]; [done..|].
  clear ws Hws.
  destruct (counters_is_Some pool_waitingClientsCount w h me) as [q Hq]; [done..|].
  set (st' := pool_acquire None (p_state po)) in *.
  set (x := (i + 1) `mod` Z.of_nat (length (cluster me))) in *.
  eexists _, i, p, po, (length (cluster me)), (sum_list l), (sum_list a),
    (sum_list q), _, _, _.
  split; [exact Hacq|]. split; [done|]. split; [done|]. split; [done|].
  split.
  { unfold statistics, getClusterSize, getPoolSize, availableObjectsCount,
      waitingClientsCount. rewrite Hme. simpl.
    by rewrite (sum_pools_counters _ _ _ _ Hl), (sum_pools_counters _ _ _ _ Ha),
      (sum_pools_counters _ _ _ _ Hq). }
  split.
  { unfold statistics, getClusterSize, getPoolSize, availableObjectsCount,
      waitingClientsCount. cbn [a_world].
    assert (clusters (set_pool_state p po st' (set_index h me x w)) !! h
            = Some (ClusterObj (cluster me) x (factory me))) as ->
      by (simpl; by rewrite lookup_insert_eq).
    simpl.
    rewrite (sum_pools_counters _ _ _ _
               (counters_update pool_getPoolSize w _ _ _ _ po st' h me x Hnd Hp Hl)),
      (sum_pools_counters _ _ _ _
         (counters_update pool_availableObjectsCount w _ _ _ _ po st' h me x Hnd Hp Ha)),
      (sum_pools_counters _ _ _ _
         (counters_update pool_waitingClientsCount w _ _ _ _ po st' h me x Hnd Hp Hq)).
    done. }
  cbv zeta.
  destruct (counters_lookup _ _ _ _ _ _ Hl Hp) as (po1 & Hpo1 & Hl1).
  destruct (counters_lookup _ _ _ _ _ _ Ha Hp) as (po2 & Hpo2 & Ha1).
  destruct (counters_lookup _ _ _ _ _ _ Hq Hp) as (po3 & Hpo3 & Hq1).
  simplify_eq.
  split; [|split]; by apply sum_list_insert.
Qed.

End MoreStatistics.

(** ** What no call ever does *)

Section MoreHeap.
Import JS ClusterPool.
Context `{PM : PoolModule}.

Lemma step_members h (w w' : world) me :
  step w w' → clusters w !! h = Some me →
  ∃ me', clusters w' !! h = Some me' ∧
         cluster me `prefix_of` cluster me' ∧ factory me' = factory me.
Proof.
  intros Hstep Hme.
  destruct Hstep as [f w _|h1 c w w' Hadd|h1 q w r Hacq|p po st w Hp]; simpl.
  - exists me. rewrite lookup_insert_ne; [done|].
    intros <-. by rewrite fresh_cluster in Hme.
  - apply add_inv in Hadd as (me1 & Hme1 & ->). cbv zeta. simpl.
    destruct (decide (h1 = h)) as [->|Hne].
    + rewrite lookup_insert_eq. assert (me1 = me) as -> by congruence.
      eexists. split; [done|]. simpl. split; [by apply prefix_app_r|done].
    + rewrite lookup_insert_ne by done. by exists me.
  - apply acquire_inv in Hacq
      as (me1 & Hme1 & [[_ ->]|(i & p & po & tr & Hi & _ & _ & ->)]);
      [by exists me|].
    simpl. destruct (decide (h1 = h)) as [->|Hne].
    + rewrite lookup_insert_eq. assert (me1 = me) as -> by congruence.
      eexists. split; [done|]. done.
    + rewrite lookup_insert_ne by done. by exists me.
  - by exists me.
Qed.

Lemma step_objects (w w' : world) :
  step w w' →
  (∀ l o, objs w !! l = Some o → objs w' !! l = Some o) ∧
  (∀ p po, pools w !! p = Some po →
     ∃ po', pools w' !! p = Some po' ∧ p_factory po' = p_factory po).
Proof.
  intros Hstep.
  destruct Hstep as [f w _|h1 c w w' Hadd|h1 q w r Hacq|p po st w Hp]; simpl.
  - eauto.
  - apply add_inv in Hadd as (me1 & Hme1 & ->). cbv zeta. simpl. split.
    + intros l o Hl. rewrite lookup_insert_ne; [done|].
      intros <-. by rewrite fresh_obj in Hl.
    + intros p po Hp. rewrite lookup_insert_ne; [by eauto|].
      intros <-. by rewrite fresh_pool in Hp.
  - apply acquire_inv in Hacq
      as (me1 & Hme1 & [[_ ->]|(i & p & po & tr & Hi & _ & Hpo & ->)]);
      [by eauto|].
    simpl. split; [done|]. intros p' po' Hp'.
    destruct (decide (p = p')) as [->|Hne].
    + rewrite lookup_insert_eq. eexists. split; [done|]. simpl. congruence.
    + rewrite lookup_insert_ne by done. eauto.
  - split; [done|]. intros p' po' Hp'.
    destruct (decide (p = p')) as [->|Hne].
    + rewrite lookup_insert_eq. eexists. split; [done|]. simpl. congruence.
    + rewrite lookup_insert_ne by done. eauto.
Qed.

(** X10.  Whatever calls are made, a cluster keeps its handle and its
    factory, and its array only grows at the end: every Member stays at
    the index it was added at. *)
Theorem members_append_only h (w w' : world) me :
  rtc step w w' → clusters w !! h = Some me →
  ∃ me', clusters w' !! h = Some me' ∧
         cluster me `prefix_of` cluster me' ∧
         (∀ i p, cluster me !! i = Some p → cluster me' !! i = Some p) ∧
         factory me' = factory me.
Proof.
  intros Hsteps Hme.
  assert (∃ me', clusters w' !! h = Some me' ∧
                 cluster me `prefix_of` cluster me' ∧ factory me' = factory me)
    as (me' & Hme' & Hpre & Hf).
  { revert me Hme. induction Hsteps as [w|w1 w2 w3 Hstep _ IH]; intros me Hme.
    - by exists me.
    - destruct (step_members h _ _ _ Hstep Hme) as (me2 & Hme2 & Hpre2 & Hf2).
      destruct (IH _ Hme2) as (me3 & Hme3 & Hpre3 & Hf3).
      exists me3. split; [done|]. split; [by etrans|congruence]. }
  exists me'. split; [done|]. split; [done|]. split; [|done].
  intros i p Hp. by eapply prefix_lookup_Some.
Qed.

(** X11.  Whatever calls are made, an object that is on the heap is never
    written again, be it a factory object passed to [create] or the
    object a pool was built from, and a pool is never dropped nor given
    another object. *)
Theorem objects_never_mutated (w w' : world) :
  rtc step w w' →
  (∀ l o, objs w !! l = Some o → objs w' !! l = Some o) ∧
  (∀ p po, pools w !! p = Some po →
     ∃ po', pools w' !! p = Some po' ∧ p_factory po' = p_factory po).
Proof.
  induction 1 as [w|w1 w2 w3 Hstep _ [IHo IHp]]; [by eauto|].
  destruct (step_objects _ _ Hstep) as [Ho Hp]. split.
  - eauto.
  - intros p po Hpo. destruct (Hp _ _ Hpo) as (po2 & Hpo2 & Hf2).
    destruct (IHp _ _ Hpo2) as (po3 & Hpo3 & Hf3).
    exists po3. split; [done|congruence].
Qed.

(** X12.  Every pool of a reachable heap was built from an object that is
    on the heap, and no two pools were built from the same object. *)
Theorem pools_own_their_factory (w : world) :
  reachable w →
  (∀ p po, pools w !! p = Some po → is_Some (objs w !! p_factory po)) ∧
  (∀ p1 p2 po1 po2,
     pools w !! p1 = Some po1 → pools w !! p2 = Some po2 →
     p_factory po1 = p_factory po2 → p1 = p2).
Proof.
  intros (w0 & [Hp0 _] & Hsteps).
  assert ((∀ p po, pools w0 !! p = Some po → is_Some (objs w0 !! p_factory po)) ∧
          (∀ p1 p2 po1 po2,
             pools w0 !! p1 = Some po1 → pools w0 !! p2 = Some po2 →
             p_factory po1 = p_factory po2 → p1 = p2)) as Hinit.
  { rewrite Hp0. split; intros; simplify_map_eq. }
  clear Hp0. induction Hsteps as [w|w1 w2 w3 Hstep _ IH]; [done|].
  apply IH. clear IH. destruct Hinit as [Hlive Hinj].
  destruct Hstep as [f w _|h1 c w w' Hadd|h1 q w r Hacq|p po st w Hp]; simpl.
  - done.
  - apply add_inv in Hadd as (me1 & Hme1 & ->). cbv zeta. simpl.
    pose proof (fresh_obj w) as Hfo. pose proof (fresh_pool w) as Hfp.
    set (l := fresh (dom (objs w))) in *. set (p := fresh (dom (pools w))) in *.
    split.
    + intros p' po' [[<- <-]|[_ Hp']]%lookup_insert_Some; simpl.
      * by rewrite lookup_insert_eq.
      * destruct (Hlive _ _ Hp') as [o Ho].
        assert (l ≠ p_factory po') by congruence.
        rewrite lookup_insert_ne; by eauto.
    + intros p1 p2 po1 po2 [[<- <-]|[_ H1]]%lookup_insert_Some
                            [[<- <-]|[_ H2]]%lookup_insert_Some; simpl;
        [done| | |by eauto].
      * intros Heq. destruct (Hlive _ _ H2) as [o Ho]. congruence.
      * intros Heq. destruct (Hlive _ _ H1) as [o Ho]. congruence.
  - apply acquire_inv in Hacq
      as (me1 & Hme1 & [[_ ->]|(i & p & po & tr & Hi & _ & Hpo & ->)]);
      [done|].
    simpl. split.
    + intros p' po' [[<- <-]|[_ Hp']]%lookup_insert_Some; simpl; eauto.
    + intros p1 p2 po1 po2 [[<- <-]|[? H1]]%lookup_insert_Some
                            [[<- <-]|[? H2]]%lookup_insert_Some; simpl;
        [done|by eauto..].
  - split.
    + intros p' po' [[<- <-]|[_ Hp']]%lookup_insert_Some; simpl; eauto.
    + intros p1 p2 po1 po2 [[<- <-]|[? H1]]%lookup_insert_Some
                            [[<- <-]|[? H2]]%lookup_insert_Some; simpl;
        [done|by eauto..].
Qed.

(** X13.  [create] returns a handle no cluster has, writes no object and
    no pool, and leaves every existing cluster as it was; the cluster it
    makes reports size 0 and three totals of 0. *)
Theorem create_leaves_clusters_alone f (w : world) :
  let h := (create f w).1 in
  let w' := (create f w).2 in
  clusters w !! h = None ∧
  objs w' = objs w ∧ pools w' = pools w ∧
  (∀ h' me, clusters w !! h' = Some me → same_cluster h' w w') ∧
  statistics h w' = (Some 0, Some 0, Some 0, Some 0)%nat.
Proof.
  intros h w'. pose proof (fresh_cluster w) as Hfresh.
  split; [done|]. split; [done|]. split; [done|]. split.
  - intros h' me Hme. apply same_cluster_intro; [|done].
    simpl. rewrite lookup_insert_ne; [done|]. intros <-. congruence.
  - unfold statistics, getClusterSize, getPoolSize, availableObjectsCount,
      waitingClientsCount, w', h. simpl. by rewrite lookup_insert_eq.
Qed.

End MoreHeap.

(** ** The further properties on the example clusters *)

Section MoreWitnesses.
Import JS ClusterPool Example.
#[local] Existing Instance CountingPool.module.

Lemma acquire_selects_least_waiting_witness :
  reachable w_loaded ∧
  ∃ ws r i m,
    waitings w_loaded [1; 2; 3]%positive = Some ws ∧
    acquire 1%positive None w_loaded = Return r ∧
    a_selected r = Some i ∧
    ws !! Z.to_nat i = Some m ∧
    (∀ j x, ws !! j = Some x → (m ≤ x)%nat) ∧
    ((∃ j, ws !! j = Some 0%nat) → m = 0%nat).
Proof.
  split; [apply w_loaded_reachable|].
  apply (acquire_selects_least_waiting 1%positive None w_loaded
           (ClusterObj [1; 2; 3]%positive 0 (Some 1%positive))
           w_loaded_reachable eq_refl).
  done.
Defined.

Lemma acquire_reads_each_member_once_witness :
  ∃ r rest,
    acquire 1%positive None w_loaded = Return r ∧
    reads (a_trace r) = 0 :: rest ∧
    NoDup (reads (a_trace r)) ∧
    (length (reads (a_trace r)) ≤ 3)%nat ∧
    Forall (λ i, 0 ≤ i < 3) (reads (a_trace r)).
Proof.
  apply (acquire_reads_each_member_once 1%positive None w_loaded
           (ClusterObj [1; 2; 3]%positive 0 (Some 1%positive))
           w_loaded_reachable eq_refl).
  done.
Defined.

Lemma acquire_idle_cluster_round_robin_witness :
  waitingClientsCount 1%positive w_three = Some 0%nat ∧
  ∃ r me',
    acquire 1%positive None w_three = Return r ∧
    a_selected r = Some 0 ∧
    reads (a_trace r) = [0] ∧
    clusters (a_world r) !! 1%positive = Some me' ∧
    index me' = (0 + 1) `mod` 3.
Proof.
  split; [reflexivity|].
  apply (acquire_idle_cluster_round_robin 1%positive None w_three
           (ClusterObj [1; 2; 3]%positive 0 (Some 1%positive))
           w_three_reachable eq_refl); [done|reflexivity].
Defined.

Lemma acquire_single_member_witness :
  clusters w_pair !! 2%positive
  = Some (ClusterObj [4]%positive 0 (Some 1%positive)) ∧
  ∃ r po me',
    acquire 2%positive None w_pair = Return r ∧
    a_selected r = Some 0 ∧
    pools w_pair !! 4%positive = Some po ∧
    a_trace r = [EvWaitingClientsCount 0 4; EvPoolAcquire 4 None] ∧
    clusters (a_world r) !! 2%positive = Some me' ∧ index me' = 0.
Proof.
  split; [reflexivity|].
  apply (acquire_single_member 2%positive None w_pair
           (ClusterObj [4]%positive 0 (Some 1%positive)) 4%positive
           w_pair_reachable eq_refl eq_refl).
Defined.

Lemma acquires_full_round_witness :
  waitings w_three [1; 2; 3]%positive = Some (replicate 3 0%nat) ∧
  ∃ w' me',
    acquires 1%positive None 3 w_three
    = Return (w', (λ k : nat, Some ((0 + Z.of_nat k) `mod` 3)) <$> seq 0 3) ∧
    NoDup ((λ k : nat, (0 + Z.of_nat k) `mod` 3) <$> seq 0 3) ∧
    clusters w' !! 1%positive = Some me' ∧
    cluster me' = [1; 2; 3]%positive ∧ index me' = 0.
Proof.
  split; [reflexivity|].
  apply (acquires_full_round 1%positive None w_three
           (ClusterObj [1; 2; 3]%positive 0 (Some 1%positive))
           w_three_reachable eq_refl); [done|reflexivity].
Defined.

Lemma acquire_frame_witness :
  ∃ r i p po tr me',
    acquire 1%positive None w_three = Return r ∧
    a_selected r = Some i ∧
    [1; 2; 3]%positive !! Z.to_nat i = Some p ∧ pools w_three !! p = Some po ∧
    a_trace r = tr ++ [EvPoolAcquire p None] ∧
    objs (a_world r) = objs w_three ∧
    dom (pools (a_world r)) = dom (pools w_three) ∧
    (∀ q, q ≠ p → pools (a_world r) !! q = pools w_three !! q) ∧
    clusters (a_world r) !! 1%positive = Some me' ∧
    cluster me' = [1; 2; 3]%positive.
Proof.
  destruct (acquire 1%positive None w_three) as [r|w'] eqn:Hacq.
  - destruct (acquire_frame 1%positive None w_three r
                (ClusterObj [1; 2; 3]%positive 0 (Some 1%positive))
                Hacq eq_refl)
      as (i & p & po & tr & me' & H1 & H2 & H3 & H4 & _ & H5 & H6 & _ & H7 & H8 & H9 & _);
      [done|].
    exists r, i, p, po, tr, me'. by repeat (split; [done|]).
  - exfalso.
    assert (shown (acquire 1%positive None w_three) ≠ None) as Hshown
      by (vm_compute; discriminate).
    apply Hshown. by rewrite Hacq.
Defined.


Lemma add_extends_statistics_witness :
  ∃ w' st size launched available waiting,
    add 1%positive (VFun 9) w_loaded = Return w' ∧
    st = (CountingPool.construct (<["create" := VFun 9]> config)).2 ∧
    statistics 1%positive w_loaded
    = (Some size, Some launched, Some available, Some waiting) ∧
    statistics 1%positive w'
    = (Some (S size),
       Some (launched + CountingPool.count st)%nat,
       Some (available + CountingPool.available st)%nat,
       Some (waiting + CountingPool.waiting st)%nat).
Proof.
  apply (add_extends_statistics 1%positive (VFun 9) w_loaded
           (ClusterObj [1; 2; 3]%positive 0 (Some 1%positive))
           w_loaded_reachable eq_refl).
Defined.

Lemma acquire_moves_totals_witness :
  ∃ r i p po size l a q l' a' q',
    acquire 1%positive None w_loaded = Return r ∧ a_selected r = Some i ∧
    [1; 2; 3]%positive !! Z.to_nat i = Some p ∧ pools w_loaded !! p = Some po ∧
    statistics 1%positive w_loaded = (Some size, Some l, Some a, Some q) ∧
    statistics 1%positive (a_world r) = (Some size, Some l', Some a', Some q') ∧
    let st := p_state po in
    let st' := CountingPool.request None st in
    (l' + CountingPool.count st = l + CountingPool.count st')%nat ∧
    (a' + CountingPool.available st = a + CountingPool.available st')%nat ∧
    (q' + CountingPool.waiting st = q + CountingPool.waiting st')%nat.
Proof.
  apply (acquire_moves_totals 1%positive None w_loaded
           (ClusterObj [1; 2; 3]%positive 0 (Some 1%positive))
           w_loaded_reachable eq_refl).
  done.
Defined.

Lemma w_later_steps : rtc step w_three w_later.
Proof.
  apply (rtc_l _ _ (after_acquire 1 None w_three)).
  - unfold after_acquire.
    destruct (acquire 1%positive None w_three) as [r|w'] eqn:Hacq.
    + by eapply step_acquire.
    + exfalso.
      assert (shown (acquire 1%positive None w_three) ≠ None) as Hshown
        by (vm_compute; discriminate).
      apply Hshown. by rewrite Hacq.
  - apply rtc_once. apply (add_to_step 1 4). by eexists.
Qed.

Lemma members_append_only_witness :
  rtc step w_three w_later ∧
  clusters w_three !! 1%positive
  = Some (ClusterObj [1; 2; 3]%positive 0 (Some 1%positive)) ∧
  clusters w_later !! 1%positive
  = Some (ClusterObj [1; 2; 3; 4]%positive 1 (Some 1%positive)) ∧
  ∃ me', clusters w_later !! 1%positive = Some me' ∧
         [1; 2; 3]%positive `prefix_of` cluster me' ∧
         (∀ i p, [1; 2; 3]%positive !! i = Some p → cluster me' !! i = Some p) ∧
         factory me' = Some 1%positive.
Proof.
  split; [apply w_later_steps|]. split; [reflexivity|]. split; [reflexivity|].
  apply (members_append_only 1%positive w_three w_later
           (ClusterObj [1; 2; 3]%positive 0 (Some 1%positive))
           w_later_steps eq_refl).
Defined.

Lemma objects_never_mutated_witness :
  rtc step w_empty w_three ∧
  objs w_three !! 1%positive = Some config.
Proof.
  split; [apply w_three_steps|].
  by apply (objects_never_mutated w_empty w_three w_three_steps).
Defined.

Lemma pools_own_their_factory_witness :
  reachable w_pair ∧
  (∀ p po, pools w_pair !! p = Some po → is_Some (objs w_pair !! p_factory po)) ∧
  (∀ p1 p2 po1 po2,
     pools w_pair !! p1 = Some po1 → pools w_pair !! p2 = Some po2 →
     p_factory po1 = p_factory po2 → p1 = p2).
Proof.
  split; [apply w_pair_reachable|].
  apply (pools_own_their_factory w_pair w_pair_reachable).
Defined.

End MoreWitnesses.
